(** * Doggy Day Planner: itinerary assembly, leg matching and PDF layout

    A shallow embedding of the client logic in [src/index.tsx]:
    the processing of the model's [location] and [line] records
    ([setPin], [setLeg], [sendText]), the ordering of the day plan
    (the comparator handed to [Array.prototype.sort]), the lookup of the
    line connecting two consecutive stops ([lines.find]), the assembly
    of the on-screen timeline ([createTimeline]) and of the exported
    itinerary ([exportDayPlan]), and the page walk of
    [drawItineraryOnPdf].

    - JavaScript numbers are IEEE 754 binary64 values; they are modelled
      by [spec_float] at precision 53 and maximal exponent 1024, with
      [Number] on strings written out.
    - The module variables of [index.tsx] are the fields of [State];
      functions that read and write them, and may throw, are
      computations of the monad [M].
    - What the browser, Leaflet and jsPDF supply is a parameter:
      [localeCompare] and Leaflet's check of a coordinate pair in
      [Host], the page size and the text measures in [Pdf.Host].
    - The document is the list of the calls made on it; lengths on the
      page are idealised as rationals.
    - Markup, style classes and popups are display only and left out. *)

From Stdlib Require Import Bool List ZArith QArith Lia Lqa.
From Stdlib Require Import Ascii String.
From Stdlib Require Import Sorting.Sorted Sorting.Permutation.
From Stdlib Require Import Floats.SpecFloat.
Import ListNotations.

Local Open Scope string_scope.
Local Open Scope list_scope.
Local Open Scope Z_scope.

(* ================================================================= *)
(** * JavaScript numbers *)

Module JS.

Definition number := spec_float.

Definition prec : Z := 53.
Definition emax : Z := 1024.

Definition NaN : number := S754_nan.
Definition Infinity : number := S754_infinity false.

(** [x - y] *)
Definition sub (x y : number) : number := SFsub prec emax x y.

(** [x === y] on numbers: IEEE equality, false on NaN, [+0 === -0]. *)
Definition strict_eq (x y : number) : bool := SFeqb x y.

(** [x < y], false on NaN. *)
Definition lt (x y : number) : bool := SFltb x y.

(** [x < 0] and [x > 0], false on NaN. *)
Definition lt0 (x : number) : bool := SFltb x (S754_zero false).
Definition gt0 (x : number) : bool := SFltb (S754_zero false) x.

Definition isNaN (x : number) : bool :=
  match x with S754_nan => true | _ => false end.

(** ToBoolean on a number: [+0], [-0] and NaN are falsy. *)
Definition truthy (x : number) : bool :=
  match x with
  | S754_zero _ | S754_nan => false
  | _ => true
  end.

(** A finite number is held with the mantissa and exponent of its
    binary64 encoding. *)
Definition valid (x : number) : bool := valid_binary prec emax x.

(** The sign of an infinite or non-zero finite number. *)
Definition signOf (x : number) : option bool :=
  match x with
  | S754_finite s _ _ | S754_infinity s => Some s
  | _ => None
  end.

(** The number nearest to the integer [m * 2^e]. *)
Definition of_Z (m : Z) : number := binary_normalize prec emax m 0 false.

(** ** [Number(string)]: the StringToNumber grammar of ECMAScript.

    Strings are sequences of 8-bit code units.  White space is
    stripped at both ends, the empty string is [+0]; a signed decimal
    literal (with optional fraction and exponent), [Infinity], or an
    unsigned binary, octal or hexadecimal integer literal is rounded
    to the nearest binary64 value; anything else is NaN. *)

Definition is_space (c : ascii) : bool :=
  let n := nat_of_ascii c in
  ((9 <=? n) && (n <=? 13) || (n =? 32) || (n =? 160))%nat.

Fixpoint trim_left (s : list ascii) : list ascii :=
  match s with
  | c :: s' => if is_space c then trim_left s' else s
  | [] => []
  end.

Definition trim (s : list ascii) : list ascii :=
  rev (trim_left (rev (trim_left s))).

(** Value of a digit in the given radix, if it is one. *)
Definition digit_val (radix : Z) (c : ascii) : option Z :=
  let n := Z.of_nat (nat_of_ascii c) in
  let v :=
    if (48 <=? n) && (n <=? 57) then n - 48
    else if (97 <=? n) && (n <=? 102) then n - 87
    else if (65 <=? n) && (n <=? 70) then n - 55
    else 99 in
  if v <? radix then Some v else None.

(** Longest prefix of digits: its value, its length, and the rest. *)
Fixpoint digits (radix : Z) (acc : Z) (len : Z) (s : list ascii)
  : Z * Z * list ascii :=
  match s with
  | c :: s' =>
      match digit_val radix c with
      | Some v => digits radix (radix * acc + v) (len + 1) s'
      | None => (acc, len, s)
      end
  | [] => (acc, len, [])
  end.

(** The binary64 value nearest to [m * 10^e10], ties to even.  For a
    negative exponent the quotient is computed to at least 56 bits
    with a sticky bit, which rounds correctly at 53 bits. *)
Definition of_decimal (neg : bool) (m : Z) (e10 : Z) : number :=
  if m =? 0 then S754_zero neg
  else
    let sg z := if neg then - z else z in
    if 0 <=? e10 then
      binary_normalize prec emax (sg (m * 10 ^ e10)) 0 false
    else
      let d := 10 ^ (- e10) in
      let shift := Z.max 0 (56 + Z.log2 d - Z.log2 m) in
      let n := m * 2 ^ shift in
      let q := n / d in
      let sticky := if n mod d =? 0 then 0 else 1 in
      binary_normalize prec emax (sg (2 * q + sticky)) (- shift - 1) false.

(** ExponentPart_opt at the end of the literal: [Some e], or [None]
    when what is left is not an exponent part. *)
Definition exponent_part (s : list ascii) : option Z :=
  match s with
  | [] => Some 0
  | c :: s' =>
      if (Ascii.eqb c "e" || Ascii.eqb c "E")%char then
        let '(neg, s'') :=
          match s' with
          | "+"%char :: t => (false, t)
          | "-"%char :: t => (true, t)
          | _ => (false, s')
          end in
        match digits 10 0 0 s'' with
        | (e, len, []) =>
            if 0 <? len then Some (if neg then - e else e) else None
        | _ => None
        end
      else None
  end.

(** StrUnsignedDecimalLiteral *)
Definition unsigned_decimal (neg : bool) (s : list ascii) : number :=
  if list_eq_dec ascii_dec s (list_ascii_of_string "Infinity")
  then S754_infinity neg
  else
    let '(ip, ilen, s1) := digits 10 0 0 s in
    let '(m, flen, s2) :=
      match s1 with
      | "."%char :: t =>
          let '(m, tot, s2) := digits 10 ip ilen t in (m, tot - ilen, s2)
      | _ => (ip, 0, s1)
      end in
    if ilen + flen =? 0 then NaN
    else
      match exponent_part s2 with
      | Some e => of_decimal neg m (e - flen)
      | None => NaN
      end.

(** NonDecimalIntegerLiteral: the digits after the [0x], [0o], [0b]. *)
Definition radix_literal (radix : Z) (s : list ascii) : number :=
  match digits radix 0 0 s with
  | (m, len, []) => if 0 <? len then of_Z m else NaN
  | _ => NaN
  end.

Definition StringToNumber (str : string) : number :=
  match trim (list_ascii_of_string str) with
  | [] => S754_zero false
  | "0"%char :: c :: t =>
      if (Ascii.eqb c "x" || Ascii.eqb c "X")%char then radix_literal 16 t
      else if (Ascii.eqb c "o" || Ascii.eqb c "O")%char then radix_literal 8 t
      else if (Ascii.eqb c "b" || Ascii.eqb c "B")%char then radix_literal 2 t
      else unsigned_decimal false ("0"%char :: c :: t)
  | "+"%char :: t => unsigned_decimal false t
  | "-"%char :: t => unsigned_decimal true t
  | s => unsigned_decimal false s
  end.

(** The values a coordinate field of a record can hold once the
    response has been read as JSON. *)
Inductive value :=
| Undefined
| Str (s : string)
| Num (x : number).

(** [Number(v)] *)
Definition Number (v : value) : number :=
  match v with
  | Undefined => NaN
  | Str s => StringToNumber s
  | Num x => x
  end.

End JS.

(** Optional strings: [undefined] is [None]; ToBoolean is false on
    [undefined] and on the empty string. *)
Definition truthy (o : option string) : bool :=
  match o with
  | Some s => negb (s =? "")%string
  | None => false
  end.

(** [o || d] on an optional string. *)
Definition or_else (o : option string) (d : string) : string :=
  match o with
  | Some s => if (s =? "")%string then d else s
  | None => d
  end.

(* ================================================================= *)
(** * Data model *)

Module Point.
Record t := mk { lat : JS.number; lng : JS.number }.
End Point.

(** The arguments of a [location] function call. *)
Module LocationArgs.
Record t := mk {
  name : string;
  description : string;
  lat : JS.value;
  lng : JS.value;
  time : option string;
  duration : option string;
  sequence : option JS.number
}.
End LocationArgs.

Module LatLngArgs.
Record t := mk { lat : JS.value; lng : JS.value }.
End LatLngArgs.

(** The arguments of a [line] function call ([end] is a keyword). *)
Module LineArgs.
Record t := mk {
  name : option string;
  start : LatLngArgs.t;
  end_ : LatLngArgs.t;
  transport : option string;
  travelTime : option string
}.
End LineArgs.

Inductive FunctionCall :=
| CallLocation (args : LocationArgs.t)
| CallLine (args : LineArgs.t)
| CallOther (name : string).

Module Marker.
Record t := mk { position : Point.t; title : string }.
End Marker.

(** [locationInfo] of [setPin]: a stop.  The popup markup is display
    text only and is left out. *)
Module Stop.
Record t := mk {
  name : string;
  description : string;
  position : Point.t;
  time : option string;
  duration : option string;
  sequence : option JS.number;
  marker : option Marker.t
}.
End Stop.

(** An element of [lines]: the polyline, or the plain object pushed when
    the map is not initialised, with the properties [setLeg] gives it. *)
Module Leg.
Record t := mk {
  name : option string;
  transport : option string;
  travelTime : option string;
  startPoint : Point.t;
  endPoint : Point.t
}.
End Leg.

(** A child of the [#timeline] element: a [div.timeline-item].  A
    location item is identified by its [data-index]. *)
Inductive TimelineItem :=
| LocationItem (index : nat) (item : Stop.t)
| TransportItem (line : Leg.t).

(** An element of [fullItinerary] in [exportDayPlan]. *)
Inductive ItineraryItem :=
| location (data : Stop.t)
| transport (data : Leg.t).

(** The module state of [index.tsx].  [bounds] lists the points handed
    to [bounds.extend] since the last [L.latLngBounds([])]; [timeline]
    lists the children of the [#timeline] element, which the page
    always has. *)
Record State := mkState {
  isMapInitialized : bool;
  points : list Point.t;
  markers : list Marker.t;
  lines : list Leg.t;
  popUps : list Stop.t;
  bounds : list Point.t;
  dayPlanItinerary : list Stop.t;
  timeline : list TimelineItem;
  timelineVisible : bool;
  errorMessage : string
}.

Definition set_points (f : list Point.t -> list Point.t) (s : State) :=
  mkState (isMapInitialized s) (f (points s)) (markers s) (lines s)
    (popUps s) (bounds s) (dayPlanItinerary s) (timeline s)
    (timelineVisible s) (errorMessage s).
Definition set_markers (f : list Marker.t -> list Marker.t) (s : State) :=
  mkState (isMapInitialized s) (points s) (f (markers s)) (lines s)
    (popUps s) (bounds s) (dayPlanItinerary s) (timeline s)
    (timelineVisible s) (errorMessage s).
Definition set_lines (f : list Leg.t -> list Leg.t) (s : State) :=
  mkState (isMapInitialized s) (points s) (markers s) (f (lines s))
    (popUps s) (bounds s) (dayPlanItinerary s) (timeline s)
    (timelineVisible s) (errorMessage s).
Definition set_popUps (f : list Stop.t -> list Stop.t) (s : State) :=
  mkState (isMapInitialized s) (points s) (markers s) (lines s)
    (f (popUps s)) (bounds s) (dayPlanItinerary s) (timeline s)
    (timelineVisible s) (errorMessage s).
Definition set_bounds (f : list Point.t -> list Point.t) (s : State) :=
  mkState (isMapInitialized s) (points s) (markers s) (lines s)
    (popUps s) (f (bounds s)) (dayPlanItinerary s) (timeline s)
    (timelineVisible s) (errorMessage s).
Definition set_dayPlanItinerary (f : list Stop.t -> list Stop.t) (s : State) :=
  mkState (isMapInitialized s) (points s) (markers s) (lines s)
    (popUps s) (bounds s) (f (dayPlanItinerary s)) (timeline s)
    (timelineVisible s) (errorMessage s).
Definition set_timeline (f : list TimelineItem -> list TimelineItem) (s : State) :=
  mkState (isMapInitialized s) (points s) (markers s) (lines s)
    (popUps s) (bounds s) (dayPlanItinerary s) (f (timeline s))
    (timelineVisible s) (errorMessage s).
Definition set_timelineVisible (b : bool) (s : State) :=
  mkState (isMapInitialized s) (points s) (markers s) (lines s)
    (popUps s) (bounds s) (dayPlanItinerary s) (timeline s)
    b (errorMessage s).
Definition set_errorMessage (m : string) (s : State) :=
  mkState (isMapInitialized s) (points s) (markers s) (lines s)
    (popUps s) (bounds s) (dayPlanItinerary s) (timeline s)
    (timelineVisible s) m.

(* ================================================================= *)
(** * State and exceptions *)

(** A computation reads and updates the module state and either returns
    or throws an [Error] with a message; what it did to the state before
    throwing stays done. *)
Inductive outcome (A : Type) :=
| Return (a : A)
| Throw (message : string).
Arguments Return {A} a.
Arguments Throw {A} message.

Definition M (A : Type) : Type := State -> outcome A * State.

Definition ret {A} (a : A) : M A := fun s => (Return a, s).
Definition throw {A} (message : string) : M A := fun s => (Throw message, s).
Definition bind {A B} (m : M A) (k : A -> M B) : M B :=
  fun s =>
    match m s with
    | (Return a, s') => k a s'
    | (Throw e, s') => (Throw e, s')
    end.
Definition get : M State := fun s => (Return s, s).
Definition modify (f : State -> State) : M unit := fun s => (Return tt, f s).
Definition when (b : bool) (m : M unit) : M unit := if b then m else ret tt.

(** [try { m } catch (e) { h(e.message) }] *)
Definition try_catch (m : M unit) (h : string -> M unit) : M unit :=
  fun s =>
    match m s with
    | (Return _, s') => (Return tt, s')
    | (Throw e, s') => h e s'
    end.

Notation "x <- m ;; k" := (bind m (fun x => k))
  (at level 61, m at next level, right associativity).
Notation "m ;; k" := (bind m (fun _ => k))
  (at level 61, right associativity).

(** [for (const x of xs) { body(x) }] *)
Fixpoint for_of {A} (xs : list A) (body : A -> M unit) : M unit :=
  match xs with
  | [] => ret tt
  | x :: xs' => body x ;; for_of xs' body
  end.

Definition exec {A} (m : M A) (s : State) : State := snd (m s).

(* ================================================================= *)
(** * The objects [setPin] and [setLeg] build *)

(** [{lat: Number(args.lat), lng: Number(args.lng)}] *)
Definition pointOf (args : LocationArgs.t) : Point.t :=
  Point.mk (JS.Number (LocationArgs.lat args))
           (JS.Number (LocationArgs.lng args)).

(** [locationInfo], with the marker when the map is initialised. *)
Definition locationInfo (args : LocationArgs.t) (marker : option Marker.t)
    : Stop.t :=
  Stop.mk (LocationArgs.name args) (LocationArgs.description args)
    (pointOf args) (LocationArgs.time args) (LocationArgs.duration args)
    (LocationArgs.sequence args) marker.

Definition startOf (args : LineArgs.t) : Point.t :=
  Point.mk (JS.Number (LatLngArgs.lat (LineArgs.start args)))
           (JS.Number (LatLngArgs.lng (LineArgs.start args))).

Definition endOf (args : LineArgs.t) : Point.t :=
  Point.mk (JS.Number (LatLngArgs.lat (LineArgs.end_ args)))
           (JS.Number (LatLngArgs.lng (LineArgs.end_ args))).

(** The element pushed on [lines]. *)
Definition legOf (args : LineArgs.t) : Leg.t :=
  Leg.mk (LineArgs.name args) (LineArgs.transport args)
    (LineArgs.travelTime args) (startOf args) (endOf args).

(* ================================================================= *)
(** * The host: what the browser and Leaflet supply *)

(** [localeCompare] is [String.prototype.localeCompare], whose order is
    the host's collation.  [latLngError p] is [None] when Leaflet takes
    [p] as a coordinate pair and [Some msg] when it throws
    [Error(msg)]. *)
Record Host := mkHost {
  localeCompare : string -> string -> JS.number;
  latLngError : Point.t -> option string
}.

(** [Array.prototype.sort(comparefn)]: a stable sort; [x] moves behind
    [y] only where [comparefn(x, y) > 0]. *)
Section ArraySort.
Context {A : Type}.
Variable comparefn : A -> A -> JS.number.

Fixpoint insert (x : A) (sorted : list A) : list A :=
  match sorted with
  | [] => [x]
  | y :: rest =>
      if JS.gt0 (comparefn x y) then y :: insert x rest else x :: sorted
  end.

Definition Array_sort (l : list A) : list A := fold_right insert [] l.
End ArraySort.

(** [Array.prototype.forEach((item, index) => ...)] walks these pairs. *)
Definition entries {A} (l : list A) : list (nat * A) :=
  combine (seq 0 (List.length l)) l.

Section Planner.
Variable host : Host.

(* --------------------------------------------------------------- *)
(** ** Leaflet calls *)

Definition toLatLng (p : Point.t) : M unit :=
  match latLngError host p with
  | Some message => throw message
  | None => ret tt
  end.

(** [bounds.extend(p)] *)
Definition bounds_extend (p : Point.t) : M unit :=
  toLatLng p ;; modify (set_bounds (fun b => b ++ [p])).

(** [L.marker(p, {title}).addTo(map)] *)
Definition L_marker (p : Point.t) (title : string) : M Marker.t :=
  toLatLng p ;; ret (Marker.mk p title).

(** [map.panTo(p)] *)
Definition map_panTo (p : Point.t) : M unit := toLatLng p.

(** [L.polyline([start, end], ...).addTo(map)] *)
Definition L_polyline (start end_ : Point.t) : M unit :=
  toLatLng start ;; toLatLng end_.

(* --------------------------------------------------------------- *)
(** ** [restart] *)

Definition hideTimeline : M unit := modify (set_timelineVisible false).
Definition showTimeline : M unit := modify (set_timelineVisible true).

Definition restart : M unit :=
  modify (set_points (fun _ => [])) ;;
  modify (set_dayPlanItinerary (fun _ => [])) ;;
  s <- get ;;
  when (isMapInitialized s) (modify (set_bounds (fun _ => []))) ;;
  modify (set_markers (fun _ => [])) ;;
  modify (set_lines (fun _ => [])) ;;
  modify (set_popUps (fun _ => [])) ;;
  modify (set_timeline (fun _ => [])) ;;
  s <- get ;;
  when (timelineVisible s) hideTimeline.

(* --------------------------------------------------------------- *)
(** ** [setPin] and [setLeg] *)

Definition setPin (args : LocationArgs.t) : M unit :=
  let point := pointOf args in
  modify (set_points (fun l => l ++ [point])) ;;
  s <- get ;;
  marker <-
    (if isMapInitialized s then
       bounds_extend point ;;
       marker <- L_marker point (LocationArgs.name args) ;;
       modify (set_markers (fun l => l ++ [marker])) ;;
       map_panTo point ;;
       ret (Some marker)
     else ret None) ;;
  let locationInfo := locationInfo args marker in
  modify (set_popUps (fun l => l ++ [locationInfo])) ;;
  when (truthy (LocationArgs.time args))
    (modify (set_dayPlanItinerary (fun l => l ++ [locationInfo]))).

Definition setLeg (args : LineArgs.t) : M unit :=
  let start := startOf args in
  let end_ := endOf args in
  modify (set_points (fun l => l ++ [start; end_])) ;;
  s <- get ;;
  when (isMapInitialized s)
    (bounds_extend start ;; bounds_extend end_ ;; L_polyline start end_) ;;
  modify (set_lines (fun l => l ++ [legOf args])).

(* --------------------------------------------------------------- *)
(** ** The line connecting two consecutive stops *)

(** The callback of [lines.find] in [createTimeline] and in
    [exportDayPlan]; every element of [lines] has both end points. *)
Definition connects (currentItem nextItem : Stop.t) (line : Leg.t) : bool :=
  let p1 := Stop.position currentItem in
  let p2 := Stop.position nextItem in
  let l_start := Leg.startPoint line in
  let l_end := Leg.endPoint line in
  (JS.strict_eq (Point.lat l_start) (Point.lat p1)
     && JS.strict_eq (Point.lng l_start) (Point.lng p1)
     && JS.strict_eq (Point.lat l_end) (Point.lat p2)
     && JS.strict_eq (Point.lng l_end) (Point.lng p2))
  || (JS.strict_eq (Point.lat l_start) (Point.lat p2)
     && JS.strict_eq (Point.lng l_start) (Point.lng p2)
     && JS.strict_eq (Point.lat l_end) (Point.lat p1)
     && JS.strict_eq (Point.lng l_end) (Point.lng p1)).

Definition connectingLine (lines : list Leg.t)
    (currentItem nextItem : Stop.t) : option Leg.t :=
  find (connects currentItem nextItem) lines.

(* --------------------------------------------------------------- *)
(** ** [createTimeline] *)

(** [node.after(x)] for the location item of the given index. *)
Fixpoint after (index : nat) (x : TimelineItem)
    (children : list TimelineItem) : list TimelineItem :=
  match children with
  | [] => []
  | LocationItem j item :: rest =>
      if (j =? index)%nat then LocationItem j item :: x :: rest
      else LocationItem j item :: after index x rest
  | c :: rest => c :: after index x rest
  end.

(** The body of the loop over [i]. *)
Definition addTransportItem (lines : list Leg.t) (dayPlan : list Stop.t)
    (children : list TimelineItem) (i : nat) : list TimelineItem :=
  match nth_error dayPlan i, nth_error dayPlan (i + 1) with
  | Some currentItem, Some nextItem =>
      match connectingLine lines currentItem nextItem with
      | Some line =>
          if truthy (Leg.transport line) || truthy (Leg.travelTime line)
          then after i (TransportItem line) children
          else children
      | None => children
      end
  | _, _ => children
  end.

(** The children of [#timeline] when [createTimeline] gets past its
    guard. *)
Definition timelineChildren (lines : list Leg.t) (dayPlan : list Stop.t)
    : list TimelineItem :=
  let children :=
    fold_left (fun children '(index, item) =>
                 children ++ [LocationItem index item])
              (entries dayPlan) [] in
  if (0 <? List.length lines)%nat then
    let timelineItems := children in
    fold_left (addTransportItem lines dayPlan)
              (seq 0 (List.length timelineItems - 1)) children
  else children.

Definition createTimeline : M unit :=
  s <- get ;;
  if (List.length (dayPlanItinerary s) =? 0)%nat then ret tt
  else modify (set_timeline (fun _ =>
         timelineChildren (lines s) (dayPlanItinerary s))).

(* --------------------------------------------------------------- *)
(** ** [exportDayPlan], step 4: merging locations and travel legs *)

Definition pushItinerary (lines : list Leg.t) (dayPlan : list Stop.t)
    (fullItinerary : list ItineraryItem) (entry : nat * Stop.t)
    : list ItineraryItem :=
  let '(index, item) := entry in
  let fullItinerary := fullItinerary ++ [location item] in
  if (index <? List.length dayPlan - 1)%nat then
    match nth_error dayPlan (index + 1) with
    | Some nextItem =>
        match connectingLine lines item nextItem with
        | Some line => fullItinerary ++ [transport line]
        | None => fullItinerary
        end
    | None => fullItinerary
    end
  else fullItinerary.

Definition fullItinerary (lines : list Leg.t) (dayPlan : list Stop.t)
    : list ItineraryItem :=
  fold_left (pushItinerary lines dayPlan) (entries dayPlan) [].

(* --------------------------------------------------------------- *)
(** ** Ordering the day plan *)

(** [sequence || Infinity] *)
Definition sequenceOrInfinity (sequence : option JS.number) : JS.number :=
  match sequence with
  | Some x => if JS.truthy x then x else JS.Infinity
  | None => JS.Infinity
  end.

(** The comparator of [dayPlanItinerary.sort] in [sendText]. *)
Definition compareStops (a b : Stop.t) : JS.number :=
  let d := JS.sub (sequenceOrInfinity (Stop.sequence a))
                  (sequenceOrInfinity (Stop.sequence b)) in
  if JS.truthy d then d
  else localeCompare host (or_else (Stop.time a) "")
                          (or_else (Stop.time b) "").

Definition buildDayPlan (stops : list Stop.t) : list Stop.t :=
  Array_sort compareStops stops.

(* --------------------------------------------------------------- *)
(** ** [sendText] *)

(** What [fetch] and the two [response.json()] deliver: a failure with
    its message (network error, or the server's error text), or the
    list [data.functionCalls || []]. *)
Inductive Response :=
| Failed (message : string)
| Answered (functionCalls : list FunctionCall).

Definition processCall (fn : FunctionCall) : M unit :=
  match fn with
  | CallLocation args => setPin args
  | CallLine args => setLeg args
  | CallOther _ => ret tt
  end.

(** The body of the [try] block, from the answer of [fetch] on.  The
    [map.fitBounds] that ends it changes nothing of this state. *)
Definition processResponse (response : Response) : M unit :=
  match response with
  | Failed message => throw message
  | Answered functionCalls =>
      (if (List.length functionCalls =? 0)%nat
       then throw "Could not generate any results. Try again, or try a different prompt."
       else ret tt) ;;
      for_of functionCalls processCall ;;
      s <- get ;;
      when (0 <? List.length (dayPlanItinerary s))%nat
        (modify (set_dayPlanItinerary buildDayPlan) ;;
         createTimeline ;;
         showTimeline)
  end.

(** The [catch] block. *)
Definition showFailure (message : string) : M unit :=
  modify (set_errorMessage
    ("Failed to connect to the planning service. Ensure the Netlify URL is correct in the code. "
       ++ message)%string).

Definition sendText (response : Response) : M unit :=
  modify (set_errorMessage "") ;;
  restart ;;
  try_catch (processResponse response) showFailure.

End Planner.

(* ================================================================= *)
(** * [drawItineraryOnPdf] *)

Module Pdf.
Local Open Scope Q_scope.

(** A call made on the jsPDF document. *)
Inductive call :=
| setFont (fontName : string) (fontStyle : option string)
| setFontSize (size : Q)
| text (lines : list string) (x y : Q)
| addPage
| setFillColor (r g b : Z)
| circle (x y r : Q)
| setTextColor (r g b : Z)
| setDrawColor (r g b : Z)
| setLineWidth (w : Q)
| line (x1 y1 x2 y2 : Q)
| addImage
| save (filename : string).

(** The document is known by the calls made on it so far; what the
    measuring functions of jsPDF answer depends on them (the current
    font and font size). *)
Definition doc := list call.

(** What jsPDF and the browser supply: the page size, [splitTextToSize],
    the [h] of [getTextDimensions], and [String.prototype.toUpperCase]. *)
Record Host := mkHost {
  getWidth : Q;
  getHeight : Q;
  splitTextToSize : doc -> string -> Q -> list string;
  getTextDimensions_h : doc -> list string -> Q;
  toUpperCase : string -> string
}.

Section Draw.
Variable host : Host.

Definition pageHeight : Q := getHeight host.
Definition margin : Q := 20.
Definition timeX : Q := margin.
Definition connectorX : Q := timeX + 45.
Definition contentX : Q := connectorX + 15.
Definition contentWidth : Q := getWidth host - contentX - margin.

(** The document and the cursor [y]. *)
Definition cursor : Type := doc * Q.

Definition checkPageBreak (c : cursor) (neededHeight : Q) : cursor :=
  let '(d, y) := c in
  if negb (Qle_bool (y + neededHeight) (pageHeight - margin))
  then (d ++ [addPage], margin)
  else (d, y).

(** [s.charAt(0).toUpperCase() + s.slice(1)] *)
Definition capitalize (s : string) : string :=
  match s with
  | EmptyString => EmptyString
  | String c rest => (toUpperCase host (String c EmptyString) ++ rest)%string
  end.

Definition transportText (data : Leg.t) : string :=
  capitalize (or_else (Leg.transport data) "Travel").

(** The branch for [item.type === 'location']. *)
Definition drawLocation (data : Stop.t) (c : cursor) : cursor :=
  let '(d, y) := c in
  let d := d ++ [setFontSize 12; setFont "helvetica" (Some "bold");
                 text [or_else (Stop.time data) ""] timeX y;
                 setFillColor 33 150 243;
                 circle connectorX (y - 1) 3;
                 setFontSize 14;
                 text [Stop.name data] contentX y;
                 setFontSize 10; setFont "helvetica" (Some "normal")] in
  let descriptionLines :=
    splitTextToSize host d (Stop.description data) contentWidth in
  let d := d ++ [text descriptionLines contentX (y + 14)] in
  let descHeight := getTextDimensions_h host d descriptionLines in
  let durationY := y + 14 + descHeight + 6 in
  let d :=
    if truthy (Stop.duration data) then
      d ++ [setFontSize 9; setTextColor 33 150 243;
            text [or_else (Stop.duration data) ""] contentX durationY;
            setTextColor 0 0 0]
    else d in
  (d, durationY + 20).

(** The branch for [item.type === 'transport']. *)
Definition drawTransport (data : Leg.t) (c : cursor) : cursor :=
  let '(d, y) := c in
  let d := d ++ [setFillColor 153 153 153;
                 circle connectorX (y - 1) 3;
                 setFontSize 12; setFont "helvetica" (Some "bold");
                 text [transportText data] contentX y;
                 setFontSize 10; setFont "helvetica" (Some "normal");
                 text [or_else (Leg.name data) ""] contentX (y + 14)] in
  let travelTimeY := y + 14 + 12 in
  let d :=
    if truthy (Leg.travelTime data) then
      d ++ [setFontSize 9; setTextColor 33 150 243;
            text [or_else (Leg.travelTime data) ""] contentX travelTimeY;
            setTextColor 0 0 0]
    else d in
  (d, travelTimeY + 20).

(** The callback of [fullItinerary.forEach]. *)
Definition drawItem (len : nat) (c : cursor) (entry : nat * ItineraryItem)
    : cursor :=
  let '(index, item) := entry in
  let textToMeasure :=
    match item with
    | location data => Stop.description data
    | transport data => or_else (Leg.name data) ""
    end in
  let blockHeight :=
    40 + getTextDimensions_h host (fst c)
           (splitTextToSize host (fst c) textToMeasure contentWidth) in
  let c := checkPageBreak c blockHeight in
  let itemStartY := snd c in
  let '(d, y) :=
    match item with
    | location data => drawLocation data c
    | transport data => drawTransport data c
    end in
  if (index <? len - 1)%nat then
    (d ++ [setDrawColor 224 224 224; setLineWidth 0.5;
           line connectorX (itemStartY + 4) connectorX (y - 12)], y)
  else (d, y).

(** The calls that open the itinerary: font, title. *)
Definition heading : list call :=
  [setFont "helvetica" None; setFontSize 22;
   text ["Your Doggy Day Plan"] margin 40].

(** The title line of an entry. *)
Definition titleOf (item : ItineraryItem) : string :=
  match item with
  | location data => Stop.name data
  | transport data => transportText data
  end.

(** What the walk adds to the document for an entry that is put at
    the top of a new page: the page break first, then, among calls
    that are no page breaks, the entry's title at the margin. *)
Definition onNewPage (item : ItineraryItem) (block : list call) : Prop :=
  exists rest,
    block = addPage :: rest
    /\ In (text [titleOf item] contentX margin) rest
    /\ ~ In addPage rest.

Definition drawItineraryOnPdf (d : doc) (fullItinerary : list ItineraryItem)
    : doc :=
  let c : cursor := (d ++ heading, 40 + 25) in
  fst (fold_left (drawItem (List.length fullItinerary))
                 (entries fullItinerary) c).

End Draw.
End Pdf.

(** [exportDayPlan] once the map has been captured: the calls made on
    the new document. *)
Definition exportDayPlan (pdf : Pdf.Host) (s : State) : Pdf.doc :=
  let d := [Pdf.addImage] in
  let full := fullItinerary (lines s) (dayPlanItinerary s) in
  let d :=
    if (0 <? List.length full)%nat
    then Pdf.drawItineraryOnPdf pdf (d ++ [Pdf.addPage]) full
    else d in
  d ++ [Pdf.save "doggy-day-plan.pdf"].

(** The document has a line of text reading [s]. *)
Definition drawsText (s : string) (d : Pdf.doc) : bool :=
  existsb (fun c => match c with
                    | Pdf.text [t] _ _ => (t =? s)%string
                    | _ => false
                    end) d.

(* ================================================================= *)
(** * The words of the specification *)

(** Point equality of the registry: exact equality of both fields. *)
Definition equals (p q : Point.t) : bool :=
  JS.strict_eq (Point.lat p) (Point.lat q)
  && JS.strict_eq (Point.lng p) (Point.lng q).

(** The leg's end points, as an unordered pair, are the two positions. *)
Definition samePair (line : Leg.t) (p q : Point.t) : bool :=
  (equals (Leg.startPoint line) p && equals (Leg.endPoint line) q)
  || (equals (Leg.startPoint line) q && equals (Leg.endPoint line) p).

(** The leg the assembler puts after [item], given the stops that
    follow it: the one found for [item] and its successor, when [shown]
    keeps it. *)
Definition legAfter (shown : Leg.t -> bool) (lines : list Leg.t)
    (item : Stop.t) (rest : list Stop.t) : list Leg.t :=
  match rest with
  | nextItem :: _ =>
      match connectingLine lines item nextItem with
      | Some line => if shown line then [line] else []
      | None => []
      end
  | [] => []
  end.

(** The assembler of the specification: each stop, then the leg that
    goes after it. *)
Fixpoint assemble (shown : Leg.t -> bool) (lines : list Leg.t)
    (dayPlan : list Stop.t) : list ItineraryItem :=
  match dayPlan with
  | [] => []
  | item :: rest =>
      location item :: map transport (legAfter shown lines item rest)
      ++ assemble shown lines rest
  end.

(** The same with the location items numbered from [k], as the children
    of [#timeline] are. *)
Fixpoint timelineFrom (shown : Leg.t -> bool) (lines : list Leg.t) (k : nat)
    (dayPlan : list Stop.t) : list TimelineItem :=
  match dayPlan with
  | [] => []
  | item :: rest =>
      LocationItem k item :: map TransportItem (legAfter shown lines item rest)
      ++ timelineFrom shown lines (S k) rest
  end.

(** What [createTimeline] shows of a leg: one with a [transport] or a
    [travelTime]. *)
Definition hasContent (line : Leg.t) : bool :=
  truthy (Leg.transport line) || truthy (Leg.travelTime line).

(** The entries [createTimeline] shows: every stop, and the legs that
    have content. *)
Definition shownInTimeline (e : ItineraryItem) : bool :=
  match e with
  | location _ => true
  | transport line => hasContent line
  end.

(** A timeline child read as an entry of the assembled sequence. *)
Definition entryOf (c : TimelineItem) : ItineraryItem :=
  match c with
  | LocationItem _ item => location item
  | TransportItem line => transport line
  end.

Definition isStop (e : ItineraryItem) : bool :=
  match e with location _ => true | transport _ => false end.

Definition stopsOf (l : list ItineraryItem) : list Stop.t :=
  flat_map (fun e => match e with location s => [s] | transport _ => [] end) l.

Definition legsOf (l : list ItineraryItem) : list Leg.t :=
  flat_map (fun e => match e with location _ => [] | transport g => [g] end) l.

(** The [location] and the [line] records of a batch, in order. *)
Definition locationsOf (calls : list FunctionCall) : list LocationArgs.t :=
  flat_map (fun fn => match fn with CallLocation a => [a] | _ => [] end) calls.

Definition linesOf (calls : list FunctionCall) : list LineArgs.t :=
  flat_map (fun fn => match fn with CallLine a => [a] | _ => [] end) calls.

(** The points a batch hands to [bounds.extend], in order. *)
Definition boundsOf (calls : list FunctionCall) : list Point.t :=
  flat_map (fun fn => match fn with
                      | CallLocation a => [pointOf a]
                      | CallLine a => [startOf a; endOf a]
                      | CallOther _ => []
                      end) calls.

(** The marker [setPin] makes when the map is initialised. *)
Definition markerOf (mapInitialized : bool) (args : LocationArgs.t)
    : option Marker.t :=
  if mapInitialized
  then Some (Marker.mk (pointOf args) (LocationArgs.name args))
  else None.

Definition hasTime (s : Stop.t) : bool := truthy (Stop.time s).


(** The state [sendText] starts the batch from: the error message
    cleared and [restart] done. *)
Definition fresh (s : State) : State :=
  mkState (isMapInitialized s) [] [] [] []
    (if isMapInitialized s then [] else bounds s) [] [] false "".

(** Leaflet is not asked (the map is not initialised), or throws on no
    point of the batch. *)
Definition accepts (host : Host) (s : State) (calls : list FunctionCall)
    : Prop :=
  isMapInitialized s = false
  \/ forall p, In p (boundsOf calls) -> latLngError host p = None.

(** What a batch that ran to its end has added to the state. *)
Record Absorbed (s s' : State) (calls : list FunctionCall) : Prop := {
  absorbed_map : isMapInitialized s' = isMapInitialized s;
  absorbed_popUps :
    popUps s'
    = popUps s
      ++ map (fun a => locationInfo a (markerOf (isMapInitialized s) a))
             (locationsOf calls);
  absorbed_dayPlan :
    dayPlanItinerary s'
    = dayPlanItinerary s
      ++ filter hasTime
           (map (fun a => locationInfo a (markerOf (isMapInitialized s) a))
                (locationsOf calls));
  absorbed_lines : lines s' = lines s ++ map legOf (linesOf calls);
  absorbed_bounds :
    bounds s'
    = bounds s ++ (if isMapInitialized s then boundsOf calls else []);
  absorbed_timeline : timeline s' = timeline s;
  absorbed_visible : timelineVisible s' = timelineVisible s;
  absorbed_error : errorMessage s' = errorMessage s
}.

(* ----------------------------------------------------------------- *)
(** ** The order of the day plan *)

(** The composite key of a stop, as the comparator reads it. *)
Definition sequenceKey (st : Stop.t) : JS.number :=
  sequenceOrInfinity (Stop.sequence st).

Definition timeKey (st : Stop.t) : string := or_else (Stop.time st) "".

(** [a] is not after [b]: its sequence key is smaller, or equal with a
    time that the collation does not put after. *)
Definition keyLe (host : Host) (a b : Stop.t) : bool :=
  JS.lt (sequenceKey a) (sequenceKey b)
  || (JS.strict_eq (sequenceKey a) (sequenceKey b)
      && negb (JS.gt0 (localeCompare host (timeKey a) (timeKey b)))).

(** Equal keys. *)
Definition sameKey (host : Host) (a b : Stop.t) : bool :=
  keyLe host a b && keyLe host b a.

(** The key in the words of the specification: the sequence if present,
    else +infinity; then the time if present, else the empty string,
    compared lexicographically. *)
Definition specSequenceKey (st : Stop.t) : JS.number :=
  match Stop.sequence st with
  | Some x => x
  | None => JS.Infinity
  end.

Definition specTimeKey (st : Stop.t) : string :=
  match Stop.time st with
  | Some t => t
  | None => ""
  end.

Definition specKeyLe (a b : Stop.t) : bool :=
  JS.lt (specSequenceKey a) (specSequenceKey b)
  || (JS.strict_eq (specSequenceKey a) (specSequenceKey b)
      && String.leb (specTimeKey a) (specTimeKey b)).

(** A comparison function that orders: what it puts after is what it
    puts before the other way round, and "not after" is transitive. *)
Record Consistent (compare : string -> string -> JS.number) : Prop := {
  consistent_antisym :
    forall a b, JS.gt0 (compare a b) = JS.lt0 (compare b a);
  consistent_trans :
    forall a b c,
      JS.gt0 (compare a b) = false -> JS.gt0 (compare b c) = false ->
      JS.gt0 (compare a c) = false
}.

(** The sequence of a stop, when it has one, is a binary64 number. *)
Definition validSequence (st : Stop.t) : bool :=
  match Stop.sequence st with
  | Some x => JS.valid x
  | None => true
  end.

(** A sequence that is [+0] or [-0]. *)
Definition zeroSequence (st : Stop.t) : bool :=
  match Stop.sequence st with
  | Some (S754_zero _) => true
  | _ => false
  end.

(** A sequence that is a positive finite number. *)
Definition positiveSequence (st : Stop.t) : bool :=
  match Stop.sequence st with
  | Some (S754_finite false _ _) => true
  | _ => false
  end.

(** The stop with a zero sequence taken for an absent one. *)
Definition withoutZeroSequence (st : Stop.t) : Stop.t :=
  if zeroSequence st then
    Stop.mk (Stop.name st) (Stop.description st) (Stop.position st)
      (Stop.time st) (Stop.duration st) None (Stop.marker st)
  else st.


(** The state once the day plan of a finished batch is ordered and
    shown. *)
Definition shownPlan (host : Host) (s : State) : State :=
  if (0 <? List.length (dayPlanItinerary s))%nat then
    let s1 := set_dayPlanItinerary (buildDayPlan host) s in
    set_timelineVisible true
      (set_timeline
         (fun _ => timelineChildren (lines s1) (dayPlanItinerary s1)) s1)
  else s.

(** Legs sit between two stops: the sequence starts and ends with a
    stop and no two legs follow each other. *)
Inductive Interleaved : list ItineraryItem -> Prop :=
| Interleaved_nil : Interleaved []
| Interleaved_last s : Interleaved [location s]
| Interleaved_stop s s' l :
    Interleaved (location s' :: l) ->
    Interleaved (location s :: location s' :: l)
| Interleaved_leg s g s' l :
    Interleaved (location s' :: l) ->
    Interleaved (location s :: transport g :: location s' :: l).

Definition lastOf {A} (l : list A) : option A :=
  match rev l with
  | x :: _ => Some x
  | [] => None
  end.

(** A stop whose latitude or longitude is NaN. *)
Definition hasNaN (s : Stop.t) : bool :=
  JS.isNaN (Point.lat (Stop.position s))
  || JS.isNaN (Point.lng (Stop.position s)).


(* ================================================================= *)
(** * A host *)

Module Browser.

(** A collation that orders strings by their code units. *)
Definition localeCompare (a b : string) : JS.number :=
  match String.compare a b with
  | Lt => JS.of_Z (-1)
  | Eq => JS.of_Z 0
  | Gt => JS.of_Z 1
  end.

(** Leaflet's [LatLng] throws on a NaN coordinate. *)
Definition latLngError (p : Point.t) : option string :=
  if JS.isNaN (Point.lat p) || JS.isNaN (Point.lng p)
  then Some "Invalid LatLng object"
  else None.

Definition host : Host := mkHost localeCompare latLngError.

(** A document of the given height whose lines are 12 points high
    and are not wrapped. *)
Definition pdf (height : Q) : Pdf.Host :=
  Pdf.mkHost 595 height
    (fun _ s _ => [s])
    (fun _ lines => (12 * inject_Z (Z.of_nat (List.length lines)))%Q)
    (fun s => s).

End Browser.

(* ================================================================= *)
(** * Sample records *)

Module Sample.

Definition noMap : State := mkState false [] [] [] [] [] [] [] false "".
Definition withMap : State := mkState true [] [] [] [] [] [] [] false "".

Definition parkArgs : LocationArgs.t :=
  LocationArgs.mk "Park" "Off-leash meadow" (JS.Str "30.1") (JS.Str "-97.1")
    (Some "09:00") None None.

Definition cafeArgs : LocationArgs.t :=
  LocationArgs.mk "Cafe" "Patio with water bowls" (JS.Str "30.2")
    (JS.Str "-97.2") (Some "11:00") None None.

(** A record whose latitude is not numeric. *)
Definition lostArgs : LocationArgs.t :=
  LocationArgs.mk "Lost" "Somewhere" (JS.Str "abc") (JS.Str "-97.3")
    (Some "10:00") None None.

(** A record without a time. *)
Definition lakeArgs : LocationArgs.t :=
  LocationArgs.mk "Lake" "Swimming spot" (JS.Str "30.3") (JS.Str "-97.4")
    None None None.

Definition walkArgs : LineArgs.t :=
  LineArgs.mk None (LatLngArgs.mk (JS.Str "30.1") (JS.Str "-97.1"))
    (LatLngArgs.mk (JS.Str "30.2") (JS.Str "-97.2"))
    (Some "walking") (Some "20 minutes").

(** The stops made of them when the map is not initialised. *)
Definition park : Stop.t := locationInfo parkArgs None.
Definition cafe : Stop.t := locationInfo cafeArgs None.
Definition lost : Stop.t := locationInfo lostArgs None.
Definition lake : Stop.t := locationInfo lakeArgs None.

Definition walk : Leg.t := legOf walkArgs.

(** The same leg stored the other way round. *)
Definition walkBack : Leg.t :=
  Leg.mk (Some "back") (Some "walking") (Some "20 minutes")
    (Stop.position cafe) (Stop.position park).

(** A [line] record with an empty [transport] and an empty
    [travelTime], and its leg. *)
Definition quietArgs : LineArgs.t :=
  LineArgs.mk (Some "Park to Cafe")
    (LatLngArgs.mk (JS.Str "30.1") (JS.Str "-97.1"))
    (LatLngArgs.mk (JS.Str "30.2") (JS.Str "-97.2"))
    (Some "") (Some "").

Definition quiet : Leg.t := legOf quietArgs.

(** The three stops of the sort scenario: sequences 3, 1 and none,
    times 10:00, 09:00 and 08:00. *)
Definition third : Stop.t :=
  Stop.mk "Third" "" (Stop.position park) (Some "10:00") None
    (Some (JS.of_Z 3)) None.
Definition first : Stop.t :=
  Stop.mk "First" "" (Stop.position park) (Some "09:00") None
    (Some (JS.of_Z 1)) None.
Definition unnumbered : Stop.t :=
  Stop.mk "Unnumbered" "" (Stop.position park) (Some "08:00") None
    None None.

(** A stop whose sequence is 0, with the earliest time. *)
Definition zeroth : Stop.t :=
  Stop.mk "Zeroth" "" (Stop.position park) (Some "07:00") None
    (Some (JS.of_Z 0)) None.

(** A leg that ends at the stop whose latitude is NaN. *)
Definition toLost : Leg.t :=
  Leg.mk None (Some "walking") None
    (Stop.position park) (Stop.position lost).

End Sample.

(* ================================================================= *)
(** * More of [index.tsx] *)

(** The text the [catch] block of [sendText] shows for an error of the
    given message. *)
Definition failureText (message : string) : string :=
  ("Failed to connect to the planning service. Ensure the Netlify URL is correct in the code. "
     ++ message)%string.

(** The message of the error thrown for an answer without function
    calls. *)
Definition noResults : string :=
  "Could not generate any results. Try again, or try a different prompt.".

(** The stops [setPin] makes of the location records of a batch. *)
Definition stopsOfBatch (mapInitialized : bool) (calls : list FunctionCall)
    : list Stop.t :=
  map (fun a => locationInfo a (markerOf mapInitialized a)) (locationsOf calls).


(** The marker of a stop is the one [setPin] made for it: at the stop's
    position, titled with its name. *)
Definition ownMarker (st : Stop.t) (m : Marker.t) : Prop :=
  Stop.marker st = Some m
  /\ Marker.position m = Stop.position st
  /\ Marker.title m = Stop.name st.

(** Every stop has its marker, when there is a map, and none has one
    when there is not. *)
Definition markersMatch (s : State) : Prop :=
  if isMapInitialized s
  then Forall2 ownMarker (popUps s) (markers s)
  else markers s = [] /\ Forall (fun st => Stop.marker st = None) (popUps s).

(** What holds while [sendText] goes through the calls of a batch: the
    day plan is made of the stops that have a time, in order of
    arrival; nothing is shown yet; the markers are those of the stops. *)
Definition sessionInvariant (s : State) : Prop :=
  dayPlanItinerary s = filter hasTime (popUps s)
  /\ timeline s = []
  /\ timelineVisible s = false
  /\ errorMessage s = ""
  /\ markersMatch s.

(* ----------------------------------------------------------------- *)
(** ** The page walk, whatever the page *)

(** What the walk adds to the document for an entry: at most one page
    break, first, and then, among calls that are no page breaks, the
    entry's title at the left of the content column. *)
Definition placed (host : Pdf.Host) (item : ItineraryItem)
    (block : list Pdf.call) : Prop :=
  exists rest y,
    (block = rest \/ block = Pdf.addPage :: rest)
    /\ In (Pdf.text [Pdf.titleOf host item] Pdf.contentX y) rest
    /\ ~ In Pdf.addPage rest.

(** The connector lines among the calls. *)
Definition connectorsOf (d : Pdf.doc) : list (Q * Q * Q * Q) :=
  flat_map (fun c => match c with
                     | Pdf.line x1 y1 x2 y2 => [(x1, y1, x2, y2)]
                     | _ => []
                     end) d.

(** The calls of the walk alone: on a document without calls. *)
Definition walk (host : Pdf.Host) (items : list ItineraryItem) : Pdf.doc :=
  Pdf.drawItineraryOnPdf host [] items.

(* ----------------------------------------------------------------- *)
(** ** [exportDayPlan], the whole click handler *)

(** The double quote, for the markup the code writes. *)
Definition quote : string := String (ascii_of_nat 34) "".

(** The label of the export button while exporting. *)
Definition exportingLabel : string :=
  ("<i class=" ++ quote ++ "fas fa-spinner fa-spin" ++ quote
     ++ "></i> Exporting...")%string.

(** What the handler touches besides the module state: the export
    button, the opacity of the lines on the map, and the file that
    [pdf.save] writes. *)
Record ExportView := mkExportView {
  disabled : bool;
  innerHTML : string;
  linesHidden : bool;
  saved : option Pdf.doc
}.

(** What [html2canvas] and [toDataURL] deliver. *)
Inductive Capture :=
| Captured
| CaptureFailed (message : string).

(** [line.setStyle(...)].  An element of [lines] is a Leaflet polyline
    when [setLeg] ran with the map initialised, and else the plain
    object of [setLeg], which has [remove] and no [setStyle];
    [isMapInitialized] is written once, when the page loads, so all the
    elements of [lines] are of the kind it tells. *)
Definition setStyle (mapInitialized : bool) (line : Leg.t) : outcome unit :=
  if mapInitialized then Return tt
  else Throw "line.setStyle is not a function".

(** [lines.forEach(line => line.setStyle(...))] *)
Fixpoint forEach_setStyle (mapInitialized : bool) (lines : list Leg.t)
    : outcome unit :=
  match lines with
  | [] => Return tt
  | line :: rest =>
      match setStyle mapInitialized line with
      | Return _ => forEach_setStyle mapInitialized rest
      | Throw e => Throw e
      end
  end.

Definition pdfFailure : string := "Could not generate PDF. An error occurred.".

(** The [try] block with its [catch]: the state and the saved file
    after it. *)
Definition exportTry (pdf : Pdf.Host) (capture : Capture) (s : State)
    (v : ExportView) : State * ExportView :=
  match capture with
  | CaptureFailed _ => (set_errorMessage pdfFailure s, v)
  | Captured =>
      (s, mkExportView (disabled v) (innerHTML v) (linesHidden v)
            (Some (exportDayPlan pdf s)))
  end.

(** The handler of the export button, which the page has. *)
Definition exportDayPlan_click (pdf : Pdf.Host) (capture : Capture)
    (s : State) (v : ExportView) : outcome unit * State * ExportView :=
  let buttonOriginalText := innerHTML v in
  let v := mkExportView true exportingLabel (linesHidden v) (saved v) in
  match forEach_setStyle (isMapInitialized s) (lines s) with
  | Throw e => (Throw e, s, v)
  | Return _ =>
      let v := mkExportView (disabled v) (innerHTML v) true (saved v) in
      let '(s, v) := exportTry pdf capture s v in
      (* finally *)
      match forEach_setStyle (isMapInitialized s) (lines s) with
      | Throw e => (Throw e, s, v)
      | Return _ =>
          (Return tt, s,
           mkExportView false buttonOriginalText false (saved v))
      end
  end.

(* ================================================================= *)
(** * The prompt, and the Netlify function that answers it *)

(** [handlePromptSubmission], with the value of the text area: the
    value it leaves there, and the prompt it hands to [sendText], if
    any.  A value that is empty once trimmed is not submitted. *)
Definition handlePromptSubmission (value : string) : string * option string :=
  match JS.trim (list_ascii_of_string value) with
  | [] => (value, None)
  | _ => ("", Some value)
  end.

Module Netlify.

(** A value read from JSON, as far as ToBoolean tells values apart. *)
Inductive Json :=
| JNull
| JBool (b : bool)
| JNum (x : JS.number)
| JStr (s : string)
| JObject.

(** ToBoolean of a property that may be missing. *)
Definition toBoolean (v : option Json) : bool :=
  match v with
  | None | Some JNull => false
  | Some (JBool b) => b
  | Some (JNum x) => JS.truthy x
  | Some (JStr s) => negb (s =? "")%string
  | Some JObject => true
  end.

(** The request: its method, and what [const { prompt } = await
    req.json()] gives, the property or the error thrown. *)
Record Request := mkRequest {
  method : string;
  prompt : outcome (option Json)
}.

(** [response.candidates?.[0]?.content?.parts]: the chain stops on a
    missing candidate or content; the parts themselves may be missing;
    each part has a [functionCall] or not. *)
Inductive FirstParts :=
| NoContent
| NoParts
| Parts (parts : list (option FunctionCall)).

(** The body of a reply, as JSON text. *)
Inductive Body :=
| NoBody
| ErrorBody (error : string) (details : option string)
| CallsBody (functionCalls : list FunctionCall).

(** A reply; all carry the same four headers. *)
Record Reply := mkReply { status : Z; body : Body }.

Definition keyMissing : string :=
  "The API_KEY environment variable is not set in the Netlify configuration.".

(** [.filter(part => !!part.functionCall).map(part => part.functionCall)] *)
Definition functionCallsOf (parts : list (option FunctionCall))
    : list FunctionCall :=
  flat_map (fun part => match part with Some fn => [fn] | None => [] end)
    (filter (fun part => match part with Some _ => true | None => false end)
       parts).

Section Handler.
(** [process.env.API_KEY] and [ai.models.generateContent]. *)
Variable API_KEY : option string.
Variable generateContent : option Json -> outcome FirstParts.

(** The [try] block. *)
Definition answer (req : Request) : outcome Reply :=
  if negb (truthy API_KEY) then Throw keyMissing
  else
    match prompt req with
    | Throw e => Throw e
    | Return p =>
        if negb (toBoolean p)
        then Return (mkReply 400 (ErrorBody "Prompt is required" None))
        else
          match generateContent p with
          | Throw e => Throw e
          | Return NoContent => Return (mkReply 200 (CallsBody []))
          | Return NoParts =>
              Throw "Cannot read properties of undefined (reading 'filter')"
          | Return (Parts parts) =>
              Return (mkReply 200 (CallsBody (functionCallsOf parts)))
          end
    end.

Definition handler (req : Request) : Reply :=
  if (method req =? "OPTIONS")%string then mkReply 204 NoBody
  else if negb (method req =? "POST")%string
  then mkReply 405 (ErrorBody "Method not allowed" None)
  else
    match answer req with
    | Return reply => reply
    | Throw e => mkReply 500 (ErrorBody "Internal server error" (Some e))
    end.

End Handler.

(** The request [sendText] makes: a POST whose body is
    [JSON.stringify({ prompt: prompt })]. *)
Definition request (prompt : string) : Request :=
  mkRequest "POST" (Return (Some (JStr prompt))).

End Netlify.

(** What [sendText] reads of the answer of [fetch]: [response.ok], then
    [errorData.error || 'The server returned an error.'], or
    [data.functionCalls || []]; [response.json()] throws on a reply
    without a body. *)
Definition readResponse (fetched : outcome Netlify.Reply) : Response :=
  match fetched with
  | Throw e => Failed e
  | Return reply =>
      let ok := (200 <=? Netlify.status reply)
                && (Netlify.status reply <=? 299) in
      match Netlify.body reply with
      | Netlify.NoBody => Failed "Unexpected end of JSON input"
      | Netlify.ErrorBody error _ =>
          if ok then Answered []
          else Failed (or_else (Some error) "The server returned an error.")
      | Netlify.CallsBody functionCalls =>
          if ok then Answered functionCalls
          else Failed "The server returned an error."
      end
  end.

(** The page and the function together: the value of the text area is
    submitted, the function answers, [sendText] reads the answer. *)
Definition submit (host : Host) (API_KEY : option string)
    (generateContent : option Netlify.Json -> outcome Netlify.FirstParts)
    (value : string) (s : State) : State :=
  match snd (handlePromptSubmission value) with
  | None => s
  | Some prompt =>
      exec (sendText host
              (readResponse
                 (Return (Netlify.handler API_KEY generateContent
                            (Netlify.request prompt))))) s
  end.

(* ================================================================= *)
(** * A click on a stop of the timeline *)

(** What a click changes: which location item of the timeline has the
    class [active] (its position among the location items), which
    marker has its popup open (its index in [popUps]), and where the
    map has been panned to. *)
Record Selection := mkSelection {
  active : option nat;
  openPopup : option nat;
  center : option Point.t
}.

(** [Array.prototype.findIndex], [None] for -1. *)
Fixpoint findIndex {A} (p : A -> bool) (l : list A) : option nat :=
  match l with
  | [] => None
  | x :: rest =>
      if p x then Some 0%nat
      else match findIndex p rest with
           | Some i => Some (S i)
           | None => None
           end
  end.

(** [timeline.querySelectorAll('.timeline-content:not(.transport)')]:
    the location items, in the order of the document. *)
Definition locationItems (children : list TimelineItem) : list Stop.t :=
  flat_map (fun c => match c with
                     | LocationItem _ item => [item]
                     | TransportItem _ => []
                     end) children.

Section Click.
Variable host : Host.
(** The [textContent] of the title element made from a name: the name
    has been written into [innerHTML]. *)
Variable textContent : string -> string.

Definition highlightTimelineItem (cardIndex : nat) (s : State) (v : Selection)
    : outcome unit * Selection :=
  let timelineItems := locationItems (timeline s) in
  let v := mkSelection None (openPopup v) (center v) in
  match timelineItems, nth_error (popUps s) cardIndex with
  | [], _ => (Return tt, v)
  | _ :: _, None =>
      (Throw "Cannot read properties of undefined (reading 'name')", v)
  | _ :: _, Some stop =>
      (Return tt,
       mkSelection
         (findIndex (fun item =>
                       (textContent (Stop.name item) =? Stop.name stop)%string)
            timelineItems)
         (openPopup v) (center v))
  end.

(** The listener [createTimeline] gives to the content of the location
    item of [item]. *)
Definition clickTimelineItem (item : Stop.t) (s : State) (v : Selection)
    : outcome unit * Selection :=
  match findIndex (fun p => (Stop.name p =? Stop.name item)%string)
          (popUps s) with
  | None => (Return tt, v)
  | Some popupIndex =>
      match highlightTimelineItem popupIndex s v with
      | (Throw e, v) => (Throw e, v)
      | (Return _, v) =>
          if isMapInitialized s then
            match nth_error (popUps s) popupIndex with
            | None =>
                (Throw "Cannot read properties of undefined (reading 'position')",
                 v)
            | Some stop =>
                let v :=
                  mkSelection (active v)
                    (match Stop.marker stop with
                     | Some _ => Some popupIndex
                     | None => None
                     end)
                    (center v) in
                match latLngError host (Stop.position stop) with
                | Some e => (Throw e, v)
                | None =>
                    (Return tt,
                     mkSelection (active v) (openPopup v)
                       (Some (Stop.position stop)))
                end
            end
          else (Return tt, v)
      end
  end.

End Click.

(** With the map every stop has a marker and a position Leaflet has
    taken. *)
Definition onTheMap (host : Host) (s : State) : Prop :=
  isMapInitialized s = true ->
  Forall (fun st => latLngError host (Stop.position st) = None
                    /\ Stop.marker st <> None) (popUps s).

(** What a click relies on: the day plan is made of the stops of
    [popUps] that have a time, and the timeline, if it is not empty,
    shows the day plan. *)
Definition clickable (host : Host) (s : State) : Prop :=
  Permutation (dayPlanItinerary s) (filter hasTime (popUps s))
  /\ onTheMap host s
  /\ (timeline s = [] \/ locationItems (timeline s) = dayPlanItinerary s).

(* ================================================================= *)
(** * Binary64 subtraction: the sign of a difference

    The comparator of the day plan subtracts two sequence numbers and
    looks at the sign of the result.  For numbers in their binary64
    encoding the rounded difference is zero, negative or positive as the
    exact one: rounding neither loses a non-zero difference nor changes
    its side. *)

Module Binary64.

Local Abbreviation emin := (SpecFloat.emin JS.prec JS.emax).
Local Abbreviation fexp := (SpecFloat.fexp JS.prec JS.emax).

Lemma digits2_pos_bounds (m : positive) :
  2 ^ (Zpos (digits2_pos m) - 1) <= Zpos m < 2 ^ Zpos (digits2_pos m).
Proof.
  induction m as [m IH|m IH|]; cbn [digits2_pos].
  - rewrite Pos2Z.inj_succ, (Pos2Z.inj_xI m).
    replace (Z.succ (Zpos (digits2_pos m)) - 1)
      with (Z.succ (Zpos (digits2_pos m) - 1)) by lia.
    rewrite !Z.pow_succ_r by lia. lia.
  - rewrite Pos2Z.inj_succ, (Pos2Z.inj_xO m).
    replace (Z.succ (Zpos (digits2_pos m)) - 1)
      with (Z.succ (Zpos (digits2_pos m) - 1)) by lia.
    rewrite !Z.pow_succ_r by lia. lia.
  - cbn. lia.
Qed.

Lemma iter_xO (m d : positive) :
  Zpos (Pos.iter xO m d) = Zpos m * 2 ^ Zpos d.
Proof.
  induction d as [|d IH] using Pos.peano_ind.
  - cbn. lia.
  - rewrite Pos.iter_succ, (Pos2Z.inj_xO (Pos.iter xO m d)), IH, Pos2Z.inj_succ.
    rewrite Z.pow_succ_r by lia. lia.
Qed.

Lemma shl_align_fst (m : positive) (e e' : Z) :
  e' <= e ->
  Zpos (fst (shl_align m e e')) = Zpos m * 2 ^ (e - e').
Proof.
  intros He. unfold shl_align.
  destruct (e' - e) as [|d|d] eqn:Hd; try lia.
  - replace (e - e') with 0 by lia. cbn [fst]. lia.
  - cbn [fst]. rewrite iter_xO. f_equal. f_equal. lia.
Qed.

(** *** Shifting right *)

Lemma shr_1_m (mrs : shr_record) :
  0 <= shr_m mrs -> shr_m (shr_1 mrs) = shr_m mrs / 2.
Proof.
  destruct mrs as [m r s]. cbn [shr_m]. intros Hm.
  destruct m as [|p|p]; [reflexivity| |lia].
  destruct p as [p|p|]; cbn [shr_1 shr_m].
  - rewrite (Pos2Z.inj_xI p). apply Z.div_unique with 1; lia.
  - rewrite (Pos2Z.inj_xO p). apply Z.div_unique with 0; lia.
  - reflexivity.
Qed.

Lemma iter_shr_1_m (n : positive) (mrs : shr_record) :
  0 <= shr_m mrs ->
  shr_m (iter_pos shr_1 n mrs) = shr_m mrs / 2 ^ Zpos n.
Proof.
  revert mrs. induction n as [n IH|n IH|]; intros mrs Hm; cbn [iter_pos].
  - assert (0 <= shr_m (shr_1 mrs)) as H1
      by (rewrite shr_1_m by assumption; apply Z.div_pos; lia).
    assert (0 <= shr_m (iter_pos shr_1 n (shr_1 mrs))) as H2
      by (rewrite IH by assumption; apply Z.div_pos; lia).
    rewrite IH, IH, shr_1_m by assumption.
    rewrite !Z.div_div by lia.
    f_equal. rewrite Pos2Z.inj_xI.
    rewrite <- Z.pow_add_r, <- (Z.pow_1_r 2) at 1 by lia.
    rewrite <- Z.pow_add_r by lia. f_equal. lia.
  - assert (0 <= shr_m (iter_pos shr_1 n mrs)) as H2
      by (rewrite IH by assumption; apply Z.div_pos; lia).
    rewrite IH, IH by assumption.
    rewrite !Z.div_div by lia.
    f_equal. rewrite Pos2Z.inj_xO.
    rewrite <- Z.pow_add_r by lia. f_equal. lia.
  - rewrite shr_1_m by assumption. reflexivity.
Qed.

Lemma shr_record_of_loc_m (m : Z) (l : SpecFloat.location) :
  shr_m (shr_record_of_loc m l) = m.
Proof. destruct l as [|[]]; reflexivity. Qed.

(** Bringing a positive mantissa to its exponent leaves it positive,
    when the exponent it starts from is not below the least one. *)
Lemma shr_fexp_pos (m : positive) (e : Z) (l : SpecFloat.location) :
  emin <= e ->
  0 < shr_m (fst (shr_fexp JS.prec JS.emax (Zpos m) e l))
  /\ emin <= snd (shr_fexp JS.prec JS.emax (Zpos m) e l).
Proof.
  intros He. unfold shr_fexp, shr. cbn [Zdigits2].
  destruct (fexp (Zpos (digits2_pos m) + e) - e) as [|n|n] eqn:Hn;
    cbn [fst snd]; rewrite ?shr_record_of_loc_m; try (split; lia).
  assert (Zpos n = Zpos (digits2_pos m) - JS.prec) as Hshift.
  { unfold SpecFloat.fexp in Hn. lia. }
  split; [|lia].
  rewrite iter_shr_1_m by (rewrite shr_record_of_loc_m; lia).
  rewrite shr_record_of_loc_m.
  apply Z.div_str_pos. split; [lia|].
  destruct (digits2_pos_bounds m) as [Hlow _].
  eapply Z.le_trans; [|exact Hlow].
  apply Z.pow_le_mono_r; [lia|]. unfold JS.prec in Hshift. lia.
Qed.

Lemma round_nearest_even_pos (m : Z) (l : SpecFloat.location) :
  0 < m -> 0 < round_nearest_even m l.
Proof.
  intros Hm. destruct l as [|[]]; cbn; try lia.
  destruct (Z.even m); lia.
Qed.

(** Rounding a non-zero value gives a non-zero finite number or an
    infinity, of the same sign. *)
Lemma binary_round_aux_sign (s : bool) (m : positive) (e : Z) (l : SpecFloat.location) :
  emin <= e ->
  JS.signOf (binary_round_aux JS.prec JS.emax s (Zpos m) e l) = Some s.
Proof.
  intros He. unfold binary_round_aux.
  destruct (shr_fexp_pos m e l He) as [Hm1 He1].
  destruct (shr_fexp JS.prec JS.emax (Zpos m) e l) as [mrs1 e1].
  cbn [fst snd] in *.
  pose proof (round_nearest_even_pos (shr_m mrs1) (loc_of_shr_record mrs1) Hm1)
    as Hr.
  destruct (round_nearest_even (shr_m mrs1) (loc_of_shr_record mrs1))
    as [|m2|m2]; try lia.
  destruct (shr_fexp_pos m2 e1 loc_Exact He1) as [Hm2 He2].
  destruct (shr_fexp JS.prec JS.emax (Zpos m2) e1 loc_Exact) as [mrs2 e2].
  cbn [fst snd] in *.
  destruct (shr_m mrs2) as [|m3|m3]; try lia.
  destruct (e2 <=? JS.emax - JS.prec); reflexivity.
Qed.

Lemma binary_round_sign (s : bool) (m : positive) (e : Z) :
  emin <= e ->
  JS.signOf (binary_round JS.prec JS.emax s m e) = Some s.
Proof.
  intros He. unfold binary_round.
  destruct (shl_align m e (fexp (Zpos (digits2_pos m) + e))) as [mz ez] eqn:Hz.
  apply binary_round_aux_sign.
  unfold shl_align in Hz.
  destruct (fexp (Zpos (digits2_pos m) + e) - e) as [|d|d] eqn:Hd;
    injection Hz as <- <-; try assumption.
  unfold SpecFloat.fexp. lia.
Qed.

Lemma binary_normalize_sign (m e : Z) :
  emin <= e ->
  match m with
  | Z0 => binary_normalize JS.prec JS.emax m e false = S754_zero false
  | Zpos _ =>
      JS.signOf (binary_normalize JS.prec JS.emax m e false) = Some false
  | Zneg _ =>
      JS.signOf (binary_normalize JS.prec JS.emax m e false) = Some true
  end.
Proof.
  intros He. destruct m; cbn [binary_normalize];
    auto using binary_round_sign.
Qed.

(** *** Comparing two finite numbers *)

Lemma bounded_inv (m : positive) (e : Z) :
  bounded JS.prec JS.emax m e = true ->
  emin <= e
  /\ Zpos (digits2_pos m) <= JS.prec
  /\ (emin < e -> Zpos (digits2_pos m) = JS.prec).
Proof.
  unfold bounded, canonical_mantissa, SpecFloat.fexp.
  intros H. apply andb_true_iff in H as [H _].
  apply Z.eqb_eq in H. lia.
Qed.

Lemma pow2_pos (n : Z) : 0 < 2 ^ n \/ 2 ^ n = 0.
Proof. destruct (Z.le_gt_cases 0 n); [left; lia|right; now apply Z.pow_neg_r]. Qed.

(** The larger exponent has the larger value. *)
Lemma finite_lt_exponent (mx my : positive) (ex ey : Z) :
  bounded JS.prec JS.emax mx ex = true ->
  bounded JS.prec JS.emax my ey = true ->
  ex < ey ->
  Zpos mx < Zpos my * 2 ^ (ey - ex).
Proof.
  intros Hx Hy Hlt.
  destruct (bounded_inv mx ex Hx) as (Hex & Hdx & _).
  destruct (bounded_inv my ey Hy) as (_ & _ & Hdy).
  specialize (Hdy ltac:(lia)).
  destruct (digits2_pos_bounds mx) as [_ Hmx].
  destruct (digits2_pos_bounds my) as [Hmy _].
  rewrite Hdy in Hmy.
  assert (2 ^ Zpos (digits2_pos mx) <= 2 ^ JS.prec) as H1
    by (apply Z.pow_le_mono_r; lia).
  assert (2 ^ 1 <= 2 ^ (ey - ex)) as H2
    by (apply Z.pow_le_mono_r; lia).
  assert (2 ^ JS.prec = 2 * 2 ^ (JS.prec - 1)) as H3 by reflexivity.
  change (2 ^ 1) with 2 in H2.
  assert (0 < 2 ^ (JS.prec - 1)) as H4 by reflexivity.
  nia.
Qed.

Lemma finite_compare (mx my : positive) (ex ey : Z) :
  bounded JS.prec JS.emax mx ex = true ->
  bounded JS.prec JS.emax my ey = true ->
  (Zpos mx * 2 ^ (ex - Z.min ex ey) ?= Zpos my * 2 ^ (ey - Z.min ex ey))
  = match ex ?= ey with
    | Lt => Lt
    | Gt => Gt
    | Eq => Pos.compare_cont Eq mx my
    end.
Proof.
  intros Hx Hy.
  destruct (Z.compare_spec ex ey) as [Heq|Hlt|Hgt].
  - subst ey. rewrite Z.min_id, Z.sub_diag, !Z.mul_1_r. reflexivity.
  - rewrite Z.min_l, Z.sub_diag, Z.mul_1_r by lia.
    apply Z.compare_lt_iff. now apply finite_lt_exponent.
  - rewrite Z.min_r, Z.sub_diag, Z.mul_1_r by lia.
    apply Z.compare_gt_iff. now apply finite_lt_exponent.
Qed.

(** *** The sign of a difference

    For two numbers other than zero and NaN, in their binary64
    encoding: [x - y] is negative where [x < y], positive where
    [x > y], and zero or NaN where they are equal. *)
Lemma sub_sign (x y : JS.number) :
  JS.valid x = true -> JS.valid y = true ->
  JS.truthy x = true -> JS.truthy y = true ->
  match SFcompare x y with
  | Some Lt => JS.signOf (JS.sub x y) = Some true
  | Some Gt => JS.signOf (JS.sub x y) = Some false
  | Some Eq => JS.truthy (JS.sub x y) = false
  | None => False
  end.
Proof.
  intros Vx Vy Tx Ty.
  destruct x as [sx|sx| |sx mx ex]; try discriminate;
    destruct y as [sy|sy| |sy my ey]; try discriminate.
  - destruct sx, sy; reflexivity.
  - destruct sx; reflexivity.
  - destruct sy; reflexivity.
  - cbn [JS.valid valid_binary] in Vx, Vy.
    destruct (bounded_inv mx ex Vx) as (Hex & _).
    destruct (bounded_inv my ey Vy) as (Hey & _).
    pose proof (finite_compare mx my ex ey Vx Vy) as Hcmp.
    unfold JS.sub, SFsub.
    set (ez := Z.min ex ey) in *.
    assert (emin <= ez) as Hez by (subst ez; lia).
    rewrite !shl_align_fst by (subst ez; lia).
    set (X := Zpos mx * 2 ^ (ex - ez)) in *.
    set (Y := Zpos my * 2 ^ (ey - ez)) in *.
    assert (0 < X) as HX by (subst X; apply Z.mul_pos_pos; [lia|];
                             apply Z.pow_pos_nonneg; subst ez; lia).
    assert (0 < Y) as HY by (subst Y; apply Z.mul_pos_pos; [lia|];
                             apply Z.pow_pos_nonneg; subst ez; lia).
    pose proof (binary_normalize_sign
                  (cond_Zopp sx X - cond_Zopp sy Y) ez Hez) as Hn.
    cbn [SFcompare].
    assert (match X ?= Y with
            | Eq => X = Y
            | Lt => X < Y
            | Gt => Y < X
            end) as Hord.
    { destruct (Z.compare_spec X Y); lia. }
    rewrite Hcmp in Hord. clear Hcmp.
    destruct sx, sy; cbn [cond_Zopp] in *.
    + (* both negative *)
      destruct (ex ?= ey);
        [destruct (Pos.compare_cont Eq mx my)|..];
        cbn [CompOpp];
        destruct (- X - - Y) as [|p|p] eqn:HM; try lia;
        try exact Hn; rewrite Hn; reflexivity.
    + (* negative minus positive *)
      destruct (- X - Y) as [|p|p] eqn:HM; try lia. exact Hn.
    + (* positive minus negative *)
      destruct (X - - Y) as [|p|p] eqn:HM; try lia. exact Hn.
    + (* both positive *)
      destruct (ex ?= ey);
        [destruct (Pos.compare_cont Eq mx my)|..];
        destruct (X - Y) as [|p|p] eqn:HM; try lia;
        try exact Hn; rewrite Hn; reflexivity.
Qed.

End Binary64.

(* ================================================================= *)
(** * Properties of the leg matcher *)

Section Matcher.

Lemma strict_eq_NaN_l (x : JS.number) : JS.strict_eq JS.NaN x = false.
Proof. reflexivity. Qed.

Lemma strict_eq_NaN_r (x : JS.number) : JS.strict_eq x JS.NaN = false.
Proof. destruct x; reflexivity. Qed.

Lemma strict_eq_isNaN_r (x y : JS.number) :
  JS.isNaN y = true -> JS.strict_eq x y = false.
Proof. destruct y; try discriminate; intros _; apply strict_eq_NaN_r. Qed.

(** A number other than NaN is equal to itself. *)
Lemma strict_eq_refl (x : JS.number) :
  JS.isNaN x = false -> JS.strict_eq x x = true.
Proof.
  destruct x as [s|s| |s m e]; cbn; try discriminate; intros _.
  - reflexivity.
  - destruct s; reflexivity.
  - unfold JS.strict_eq, SFeqb. cbn.
    rewrite Z.compare_refl, Pos.compare_cont_refl. destruct s; reflexivity.
Qed.

Lemma equals_refl (s : Stop.t) :
  hasNaN s = false -> equals (Stop.position s) (Stop.position s) = true.
Proof.
  unfold hasNaN, equals. intros H. apply orb_false_iff in H as [Hlat Hlng].
  now rewrite !strict_eq_refl.
Qed.

(** The callback of [find] says what the specification says: the
    unordered pair of end points is the pair of positions. *)
Lemma connects_samePair (a b : Stop.t) (line : Leg.t) :
  connects a b line = samePair line (Stop.position a) (Stop.position b).
Proof.
  unfold connects, samePair, equals.
  now rewrite !andb_assoc.
Qed.

Lemma connects_sym (a b : Stop.t) (line : Leg.t) :
  connects a b line = connects b a line.
Proof. unfold connects; apply orb_comm. Qed.

Lemma connectingLine_sym (lines : list Leg.t) (a b : Stop.t) :
  connectingLine lines a b = connectingLine lines b a.
Proof.
  unfold connectingLine.
  induction lines as [|line lines IH]; simpl; [reflexivity|].
  now rewrite connects_sym, IH.
Qed.

(** [find] returns the first element that passes, and nothing when
    none does. *)
Lemma find_first {A} (f : A -> bool) (l : list A) :
  match find f l with
  | Some x =>
      exists before after,
        l = before ++ x :: after
        /\ f x = true
        /\ Forall (fun y => f y = false) before
  | None => Forall (fun y => f y = false) l
  end.
Proof.
  induction l as [|y l IH]; simpl; [constructor|].
  destruct (f y) eqn:Hy.
  - exists [], l; auto.
  - destruct (find f l) as [x|].
    + destruct IH as (before & after & -> & Hx & Hb).
      exists (y :: before), after; auto.
    + auto.
Qed.

Lemma connects_NaN (a b : Stop.t) (line : Leg.t) :
  JS.isNaN (Point.lat (Stop.position a)) = true
  \/ JS.isNaN (Point.lng (Stop.position a)) = true
  \/ JS.isNaN (Point.lat (Stop.position b)) = true
  \/ JS.isNaN (Point.lng (Stop.position b)) = true ->
  connects a b line = false.
Proof.
  unfold connects.
  intros [H|[H|[H|H]]];
    rewrite !(strict_eq_isNaN_r _ _ H);
    rewrite ?andb_false_r, ?andb_false_l; reflexivity.
Qed.

Lemma connectingLine_NaN (lines : list Leg.t) (a b : Stop.t) :
  JS.isNaN (Point.lat (Stop.position a)) = true
  \/ JS.isNaN (Point.lng (Stop.position a)) = true
  \/ JS.isNaN (Point.lat (Stop.position b)) = true
  \/ JS.isNaN (Point.lng (Stop.position b)) = true ->
  connectingLine lines a b = None.
Proof.
  intros H; unfold connectingLine.
  induction lines as [|line lines IH]; simpl; [reflexivity|].
  now rewrite (connects_NaN a b line H).
Qed.

End Matcher.

(* ================================================================= *)
(** * The two assembly loops in closed form *)

Section Assembly.
Variable lines : list Leg.t.

Lemma assemble_cons shown item rest :
  assemble shown lines (item :: rest)
  = location item :: map transport (legAfter shown lines item rest)
    ++ assemble shown lines rest.
Proof. reflexivity. Qed.

Lemma entries_cons {A} (k : nat) (x : A) (l : list A) :
  combine (seq k (List.length (x :: l))) (x :: l)
  = (k, x) :: combine (seq (S k) (List.length l)) l.
Proof. reflexivity. Qed.

Lemma nth_error_next (front : list Stop.t) item rest :
  nth_error (front ++ item :: rest) (List.length front + 1)
  = nth_error rest 0.
Proof.
  rewrite nth_error_app2 by lia.
  replace (List.length front + 1 - List.length front)%nat with 1%nat by lia.
  reflexivity.
Qed.

(** The export loop, started anywhere in the day plan. *)
Lemma fullItinerary_from (rest front : list Stop.t) (acc : list ItineraryItem) :
  fold_left (pushItinerary lines (front ++ rest))
    (combine (seq (List.length front) (List.length rest)) rest) acc
  = acc ++ assemble (fun _ => true) lines rest.
Proof.
  revert front acc.
  induction rest as [|item rest IH]; intros front acc.
  - simpl; now rewrite app_nil_r.
  - rewrite entries_cons. cbn [fold_left].
    replace (S (List.length front)) with (List.length (front ++ [item]))
      by (rewrite length_app; simpl; lia).
    replace (front ++ item :: rest) with ((front ++ [item]) ++ rest)
      by (now rewrite <- app_assoc).
    rewrite IH. rewrite assemble_cons.
    rewrite <- app_assoc. cbn [app].
    unfold pushItinerary.
    rewrite nth_error_next.
    rewrite !length_app. cbn [List.length].
    destruct rest as [|nextItem rest'].
    + cbn [List.length legAfter nth_error].
      replace (List.length front <? List.length front + 1 - 1)%nat with false
        by (symmetry; apply Nat.ltb_ge; lia).
      now rewrite <- !app_assoc.
    + cbn [List.length legAfter nth_error].
      replace (List.length front <? List.length front + S (S (List.length rest')) - 1)%nat
        with true by (symmetry; apply Nat.ltb_lt; lia).
      destruct (connectingLine lines item nextItem);
        cbn [map app]; now rewrite <- !app_assoc.
Qed.

Lemma fullItinerary_assemble (dayPlan : list Stop.t) :
  fullItinerary lines dayPlan = assemble (fun _ => true) lines dayPlan.
Proof.
  unfold fullItinerary, entries.
  exact (fullItinerary_from dayPlan [] []).
Qed.

(** *** The timeline loop *)

Lemma legAfter_no_lines shown item rest : legAfter shown [] item rest = [].
Proof. destruct rest; reflexivity. Qed.

Lemma timelineFrom_length shown k dayPlan :
  List.length (timelineFrom shown [] k dayPlan) = List.length dayPlan.
Proof.
  revert k; induction dayPlan as [|item rest IH]; intros k.
  - reflexivity.
  - cbn [timelineFrom]. rewrite legAfter_no_lines. cbn [map app List.length].
    now rewrite IH.
Qed.

(** First loop: one location item per stop, numbered in order. *)
Lemma appendLocationItems_from (rest : list Stop.t) (k : nat)
    (acc : list TimelineItem) :
  fold_left (fun children '(index, item) =>
               children ++ [LocationItem index item])
    (combine (seq k (List.length rest)) rest) acc
  = acc ++ timelineFrom (fun _ => true) [] k rest.
Proof.
  revert k acc; induction rest as [|item rest IH]; intros k acc.
  - simpl; now rewrite app_nil_r.
  - rewrite entries_cons. cbn [fold_left timelineFrom].
    rewrite IH, legAfter_no_lines, <- app_assoc. reflexivity.
Qed.

(** [after] reaches the location item of that index. *)
Lemma after_app (k : nat) (x : TimelineItem) (pre post : list TimelineItem)
    (item : Stop.t) :
  (forall j it, In (LocationItem j it) pre -> (j < k)%nat) ->
  after k x (pre ++ LocationItem k item :: post)
  = pre ++ LocationItem k item :: x :: post.
Proof.
  induction pre as [|c pre IH]; intros Hpre; simpl.
  - now rewrite Nat.eqb_refl.
  - destruct c as [j it|g].
    + assert (j < k)%nat as Hj by (apply (Hpre j it); now left).
      replace (j =? k)%nat with false by (symmetry; apply Nat.eqb_neq; lia).
      rewrite IH; [reflexivity|].
      intros j' it' Hin; apply (Hpre j' it'); now right.
    + rewrite IH; [reflexivity|].
      intros j' it' Hin; apply (Hpre j' it'); now right.
Qed.

(** Second loop, started anywhere in the day plan. *)
Lemma addTransportItems_from (rest front : list Stop.t)
    (pre : list TimelineItem) :
  (forall j it, In (LocationItem j it) pre -> (j < List.length front)%nat) ->
  fold_left (addTransportItem lines (front ++ rest))
    (seq (List.length front) (List.length rest - 1))
    (pre ++ timelineFrom (fun _ => true) [] (List.length front) rest)
  = pre ++ timelineFrom hasContent lines (List.length front) rest.
Proof.
  revert front pre.
  induction rest as [|item rest IH]; intros front pre Hpre.
  - reflexivity.
  - destruct rest as [|nextItem rest'].
    + reflexivity.
    + replace (List.length (item :: nextItem :: rest') - 1)%nat
        with (S (List.length (nextItem :: rest') - 1))
        by (cbn [List.length]; lia).
      cbn [seq fold_left].
      assert (addTransportItem lines (front ++ item :: nextItem :: rest')
                (pre ++ timelineFrom (fun _ => true) []
                          (List.length front) (item :: nextItem :: rest'))
                (List.length front)
              = (pre ++ LocationItem (List.length front) item
                       :: map TransportItem
                            (legAfter hasContent lines item (nextItem :: rest')))
                ++ timelineFrom (fun _ => true) [] (S (List.length front))
                     (nextItem :: rest')) as Hstep.
      { unfold addTransportItem.
        rewrite nth_error_next.
        rewrite nth_error_app2, Nat.sub_diag by lia.
        cbn [nth_error legAfter].
        cbn [timelineFrom]. rewrite legAfter_no_lines. cbn [map app].
        destruct (connectingLine lines item nextItem) as [line|].
        - unfold hasContent.
          destruct (truthy (Leg.transport line) || truthy (Leg.travelTime line)).
          + rewrite after_app by assumption.
            cbn [map]. rewrite <- app_assoc. reflexivity.
          + cbn [map]. rewrite <- app_assoc. reflexivity.
        - cbn [map]. rewrite <- app_assoc. reflexivity. }
      rewrite Hstep.
      replace (S (List.length front)) with (List.length (front ++ [item]))
        by (rewrite length_app; simpl; lia).
      replace (front ++ item :: nextItem :: rest')
        with ((front ++ [item]) ++ nextItem :: rest')
        by (now rewrite <- app_assoc).
      rewrite IH.
      * rewrite length_app; cbn [List.length timelineFrom].
        rewrite Nat.add_1_r, <- app_assoc. reflexivity.
      * intros j it Hin. rewrite length_app; cbn [List.length].
        apply in_app_or in Hin as [Hin|Hin].
        -- specialize (Hpre j it Hin). lia.
        -- destruct Hin as [Heq|Hin].
           ++ injection Heq as <- _. lia.
           ++ apply in_map_iff in Hin as (g & Hg & _). discriminate.
Qed.

Lemma timelineFrom_no_lines shown shown' k dayPlan :
  timelineFrom shown [] k dayPlan = timelineFrom shown' [] k dayPlan.
Proof.
  revert k; induction dayPlan as [|item rest IH]; intros k.
  - reflexivity.
  - cbn [timelineFrom]. now rewrite !legAfter_no_lines, IH.
Qed.

Lemma timelineChildren_timelineFrom (dayPlan : list Stop.t) :
  timelineChildren lines dayPlan = timelineFrom hasContent lines 0 dayPlan.
Proof.
  unfold timelineChildren, entries.
  rewrite appendLocationItems_from. cbn [app].
  destruct (0 <? List.length lines)%nat eqn:Hlines.
  - rewrite timelineFrom_length.
    apply (addTransportItems_from dayPlan [] []).
    intros j it [].
  - apply Nat.ltb_ge in Hlines.
    destruct lines; [|simpl in Hlines; lia].
    apply timelineFrom_no_lines.
Qed.

(** The timeline, read as a sequence of entries, is the assembler's
    output with the legs that have content. *)
Lemma entryOf_timelineFrom shown k dayPlan :
  map entryOf (timelineFrom shown lines k dayPlan)
  = assemble shown lines dayPlan.
Proof.
  revert k; induction dayPlan as [|item rest IH]; intros k.
  - reflexivity.
  - cbn [timelineFrom assemble map entryOf].
    rewrite map_app, map_map, IH. reflexivity.
Qed.

Lemma timelineChildren_assemble (dayPlan : list Stop.t) :
  map entryOf (timelineChildren lines dayPlan)
  = assemble hasContent lines dayPlan.
Proof.
  rewrite timelineChildren_timelineFrom. apply entryOf_timelineFrom.
Qed.

End Assembly.

(* ================================================================= *)
(** * The assembled sequence *)

Section Assembled.
Variable shown : Leg.t -> bool.
Variable lines : list Leg.t.

Lemma legAfter_head item rest rest' :
  hd_error rest = hd_error rest' ->
  legAfter shown lines item rest = legAfter shown lines item rest'.
Proof.
  destruct rest, rest'; simpl; intros H; try discriminate; try reflexivity.
  now injection H as ->.
Qed.

(** Where no leg goes between [a] and [b], the sequence is that of the
    plan up to [a] followed by that of the plan from [b]. *)
Lemma assemble_unconnected (front rest : list Stop.t) (a b : Stop.t) :
  legAfter shown lines a (b :: rest) = [] ->
  assemble shown lines (front ++ a :: b :: rest)
  = assemble shown lines (front ++ [a]) ++ assemble shown lines (b :: rest).
Proof.
  intros Hab.
  induction front as [|x front IH].
  - cbn [app assemble]. rewrite Hab. reflexivity.
  - cbn [app assemble]. rewrite IH.
    rewrite (legAfter_head x (front ++ a :: b :: rest) (front ++ [a])).
    + now rewrite <- app_assoc.
    + destruct front; reflexivity.
Qed.

Lemma stopsOf_assemble (dayPlan : list Stop.t) :
  stopsOf (assemble shown lines dayPlan) = dayPlan.
Proof.
  induction dayPlan as [|item rest IH]; [reflexivity|].
  cbn [assemble]. unfold stopsOf in *. cbn [flat_map app].
  rewrite flat_map_app, IH.
  replace (flat_map _ (map transport (legAfter shown lines item rest)))
    with (@nil Stop.t); [reflexivity|].
  induction (legAfter shown lines item rest); simpl; auto.
Qed.

Lemma legAfter_length item rest :
  (List.length (legAfter shown lines item rest)
   <= match rest with [] => 0 | _ => 1 end)%nat.
Proof.
  destruct rest as [|n rest]; simpl; [lia|].
  destruct (connectingLine lines item n) as [g|]; simpl; [|lia].
  destruct (shown g); simpl; lia.
Qed.

Lemma legsOf_assemble (dayPlan : list Stop.t) :
  (List.length (legsOf (assemble shown lines dayPlan))
   <= List.length dayPlan - 1)%nat.
Proof.
  induction dayPlan as [|item rest IH]; [simpl; lia|].
  cbn [assemble]. unfold legsOf in *. cbn [flat_map app].
  rewrite flat_map_app, length_app.
  assert (flat_map (fun e => match e with location _ => []
                                        | transport g => [g] end)
            (map transport (legAfter shown lines item rest))
          = legAfter shown lines item rest) as ->.
  { induction (legAfter shown lines item rest); simpl; congruence. }
  pose proof (legAfter_length item rest).
  destruct rest; simpl in *; lia.
Qed.

Lemma assemble_Interleaved (dayPlan : list Stop.t) :
  Interleaved (assemble shown lines dayPlan).
Proof.
  induction dayPlan as [|item rest IH]; [constructor|].
  destruct rest as [|nextItem rest'].
  - simpl. constructor.
  - cbn [assemble legAfter] in *.
    destruct (connectingLine lines item nextItem) as [g|].
    + destruct (shown g); cbn [map app]; constructor; exact IH.
    + cbn [map app]; constructor; exact IH.
Qed.

Lemma lastOf_app_last {A} (l : list A) (x : A) : lastOf (l ++ [x]) = Some x.
Proof. unfold lastOf. now rewrite rev_app_distr. Qed.

Lemma lastOf_cons {A} (x y : A) (l : list A) :
  lastOf (x :: y :: l) = lastOf (y :: l).
Proof.
  destruct (exists_last (l := y :: l)) as (l' & z & ->); [discriminate|].
  now rewrite app_comm_cons, !lastOf_app_last.
Qed.

Lemma lastOf_app_cons {A} (l : list A) (y : A) (l' : list A) :
  lastOf (l ++ y :: l') = lastOf (y :: l').
Proof.
  induction l as [|x l IH]; [reflexivity|].
  destruct l; cbn [app] in *; now rewrite lastOf_cons.
Qed.

Lemma assemble_lastOf (dayPlan : list Stop.t) :
  lastOf (assemble shown lines dayPlan) = option_map location (lastOf dayPlan).
Proof.
  induction dayPlan as [|item rest IH]; [reflexivity|].
  destruct rest as [|nextItem rest'].
  - reflexivity.
  - rewrite lastOf_cons, <- IH.
    change (assemble shown lines (item :: nextItem :: rest'))
      with ((location item
               :: map transport (legAfter shown lines item (nextItem :: rest')))
            ++ assemble shown lines (nextItem :: rest')).
    cbn [assemble]. apply lastOf_app_cons.
Qed.

End Assembled.

(* ================================================================= *)
(** * Leg matching and timeline assembly: the claims *)

(** C4.  The lookup of the connecting line is symmetric in its two
    stops: for all lines and all stops [a], [b] it returns for [(a, b)]
    what it returns for [(b, a)]; a line passes the test for [(a, b)]
    exactly when, under the exact equality of points, it is stored as
    (start = a, end = b) or as (start = b, end = a); and a line stored
    with the very positions of two stops that have no NaN coordinate, in
    either direction, passes it. *)
Theorem C4_leg_matching_symmetric (lines : list Leg.t) (a b : Stop.t) :
  connectingLine lines a b = connectingLine lines b a
  /\ (forall line,
        connects a b line
        = (equals (Leg.startPoint line) (Stop.position a)
             && equals (Leg.endPoint line) (Stop.position b))
          || (equals (Leg.startPoint line) (Stop.position b)
             && equals (Leg.endPoint line) (Stop.position a)))
  /\ (hasNaN a = false -> hasNaN b = false ->
      forall name transport travelTime,
        connects a b (Leg.mk name transport travelTime
                        (Stop.position a) (Stop.position b)) = true
        /\ connects a b (Leg.mk name transport travelTime
                           (Stop.position b) (Stop.position a)) = true).
Proof.
  split; [apply connectingLine_sym|]. split.
  - intros line. apply connects_samePair.
  - intros Ha Hb name tr tt.
    rewrite !connects_samePair. unfold samePair. cbn [Leg.startPoint Leg.endPoint].
    rewrite !(equals_refl a Ha), !(equals_refl b Hb).
    split; [reflexivity|]. cbn [andb]. apply orb_true_r.
Qed.

(** The two stored directions of the sample leg both answer the query
    (park, cafe), and the query (cafe, park) as well. *)
Example connectingLine_both_directions :
  connectingLine [Sample.walk] Sample.park Sample.cafe = Some Sample.walk
  /\ connectingLine [Sample.walkBack] Sample.park Sample.cafe
     = Some Sample.walkBack
  /\ connectingLine [Sample.walk] Sample.cafe Sample.park = Some Sample.walk.
Proof. vm_compute. auto. Qed.

(** C5.  For all lines and all stops [a], [b], the lookup returns the
    first line, in arrival order, whose unordered pair of end points is
    exactly the pair of the stops' positions: every line before it
    fails the test.  When no line passes, nothing is returned, and in
    every day plan where [b] follows [a] the exported itinerary and the
    timeline put [b] right after [a].  The lookup is a total function:
    no or several matching lines are ordinary results. *)
Theorem C5_first_match_in_arrival_order (lines : list Leg.t) (a b : Stop.t) :
  match connectingLine lines a b with
  | Some line =>
      exists before after,
        lines = before ++ line :: after
        /\ samePair line (Stop.position a) (Stop.position b) = true
        /\ Forall (fun l =>
                     samePair l (Stop.position a) (Stop.position b) = false)
                  before
  | None =>
      Forall (fun l => samePair l (Stop.position a) (Stop.position b) = false)
             lines
      /\ forall front rest,
           fullItinerary lines (front ++ a :: b :: rest)
           = fullItinerary lines (front ++ [a])
             ++ fullItinerary lines (b :: rest)
           /\ map entryOf (timelineChildren lines (front ++ a :: b :: rest))
              = map entryOf (timelineChildren lines (front ++ [a]))
                ++ map entryOf (timelineChildren lines (b :: rest))
  end.
Proof.
  pose proof (find_first (connects a b) lines) as H.
  unfold connectingLine in *.
  destruct (find (connects a b) lines) as [line|] eqn:Hfind.
  - destruct H as (before & after & Hl & Hc & Hb).
    exists before, after. repeat split; auto.
    + now rewrite <- connects_samePair.
    + eapply Forall_impl; [|exact Hb]. intros l Hl'.
      now rewrite <- connects_samePair.
  - split.
    + eapply Forall_impl; [|exact H]. intros l Hl'.
      now rewrite <- connects_samePair.
    + intros front rest.
      rewrite !fullItinerary_assemble, !timelineChildren_assemble.
      split; apply assemble_unconnected;
        unfold legAfter, connectingLine; now rewrite Hfind.
Qed.

(** With two matching lines the first wins; with none the two stops
    are adjacent in the export. *)
Example connectingLine_first_of_two :
  connectingLine [Sample.walkBack; Sample.walk] Sample.park Sample.cafe
  = Some Sample.walkBack
  /\ fullItinerary [] [Sample.park; Sample.cafe]
     = [location Sample.park; location Sample.cafe].
Proof. vm_compute. auto. Qed.

(** C7.  For every day plan of N stops and all lines, the exported
    itinerary holds exactly the N stops, in the order of the plan, and
    at most N - 1 legs, each between two stops, and it ends with the
    last stop of the plan.  The children of the timeline, read as
    entries, have the same shape. *)
Theorem C7_assembler_complete (lines : list Leg.t) (dayPlan : list Stop.t) :
  let exported := fullItinerary lines dayPlan in
  let shown := map entryOf (timelineChildren lines dayPlan) in
  (stopsOf exported = dayPlan
   /\ (List.length (legsOf exported) <= List.length dayPlan - 1)%nat
   /\ Interleaved exported
   /\ lastOf exported = option_map location (lastOf dayPlan))
  /\ (stopsOf shown = dayPlan
      /\ (List.length (legsOf shown) <= List.length dayPlan - 1)%nat
      /\ Interleaved shown
      /\ lastOf shown = option_map location (lastOf dayPlan)).
Proof.
  cbv zeta.
  rewrite fullItinerary_assemble, timelineChildren_assemble.
  repeat split;
    auto using stopsOf_assemble, legsOf_assemble, assemble_Interleaved,
               assemble_lastOf.
Qed.

(** The end-to-end scenario of the specification. *)
Example assemble_park_cafe :
  fullItinerary [Sample.walk] [Sample.park; Sample.cafe]
  = [location Sample.park; transport Sample.walk; location Sample.cafe]
  /\ timelineChildren [Sample.walk] [Sample.park; Sample.cafe]
     = [LocationItem 0 Sample.park; TransportItem Sample.walk;
        LocationItem 1 Sample.cafe].
Proof. vm_compute. auto. Qed.

(** C10.  For all lines and every pair of stops of which one has a NaN
    latitude or longitude, the lookup finds nothing, and in every day
    plan where the second follows the first neither the exported
    itinerary nor the timeline has a transport entry between them. *)
Theorem C10_NaN_stop_is_unconnected (lines : list Leg.t) (a b : Stop.t) :
  hasNaN a || hasNaN b = true ->
  connectingLine lines a b = None
  /\ forall front rest,
       fullItinerary lines (front ++ a :: b :: rest)
       = fullItinerary lines (front ++ [a]) ++ fullItinerary lines (b :: rest)
       /\ map entryOf (timelineChildren lines (front ++ a :: b :: rest))
          = map entryOf (timelineChildren lines (front ++ [a]))
            ++ map entryOf (timelineChildren lines (b :: rest)).
Proof.
  intros H.
  assert (connectingLine lines a b = None) as Hnone.
  { apply connectingLine_NaN.
    unfold hasNaN in H.
    apply orb_true_iff in H as [H|H]; apply orb_true_iff in H as [H|H]; auto. }
  split; [exact Hnone|].
  intros front rest.
  rewrite !fullItinerary_assemble, !timelineChildren_assemble.
  split; apply assemble_unconnected; unfold legAfter; now rewrite Hnone.
Qed.

(** A leg stored with the very position of the stop whose latitude is
    NaN does not connect it. *)
Lemma C10_witness :
  hasNaN Sample.park || hasNaN Sample.lost = true
  /\ connectingLine [Sample.toLost] Sample.park Sample.lost = None
  /\ fullItinerary [Sample.toLost] [Sample.park; Sample.lost]
     = [location Sample.park; location Sample.lost].
Proof.
  split; [vm_compute; reflexivity|].
  destruct (C10_NaN_stop_is_unconnected [Sample.toLost] Sample.park Sample.lost)
    as [Hnone Hsplit]; [vm_compute; reflexivity|].
  split; [exact Hnone|].
  exact (proj1 (Hsplit [] [])).
Defined.

(** What [createTimeline] does with a leg that has neither a
    [transport] nor a [travelTime]: it is never a child of the
    timeline. *)
Lemma timeline_hides_content_free (lines : list Leg.t) (dayPlan : list Stop.t)
    (line : Leg.t) :
  hasContent line = false ->
  ~ In (TransportItem line) (timelineChildren lines dayPlan).
Proof.
  intros Hline. rewrite timelineChildren_timelineFrom.
  generalize 0%nat.
  induction dayPlan as [|item rest IH]; intros k; [auto|].
  cbn [timelineFrom]. intros [Heq|Hin]; [discriminate|].
  apply in_app_or in Hin as [Hin|Hin]; [|exact (IH _ Hin)].
  apply in_map_iff in Hin as (g & Hg & Hin). injection Hg as ->.
  destruct rest as [|nextItem rest']; [exact Hin|].
  cbn [legAfter] in Hin.
  destruct (connectingLine lines item nextItem) as [g|]; [|exact Hin].
  destruct (hasContent g) eqn:Hg; [|exact Hin].
  destruct Hin as [->|[]]. congruence.
Qed.

(** The leg of the sample that has no content is not shown. *)
Lemma timeline_hides_content_free_witness :
  hasContent Sample.quiet = false
  /\ ~ In (TransportItem Sample.quiet)
         (timelineChildren [Sample.quiet] [Sample.park; Sample.cafe]).
Proof.
  split; [reflexivity|].
  apply timeline_hides_content_free. reflexivity.
Defined.

(** The timeline is the exported itinerary without the legs that have
    no content. *)
Lemma assemble_filter (lines : list Leg.t) (dayPlan : list Stop.t) :
  assemble hasContent lines dayPlan
  = filter shownInTimeline (assemble (fun _ => true) lines dayPlan).
Proof.
  induction dayPlan as [|item rest IH]; [reflexivity|].
  cbn [assemble filter shownInTimeline]. rewrite filter_app, <- IH.
  f_equal. f_equal.
  destruct rest as [|nextItem rest']; [reflexivity|].
  cbn [legAfter].
  destruct (connectingLine lines item nextItem) as [line|]; [|reflexivity].
  cbn [map filter shownInTimeline]. destruct (hasContent line); reflexivity.
Qed.

Theorem timeline_is_export_without_content_free_legs
    (lines : list Leg.t) (dayPlan : list Stop.t) :
  map entryOf (timelineChildren lines dayPlan)
  = filter shownInTimeline (fullItinerary lines dayPlan).
Proof.
  rewrite timelineChildren_assemble, fullItinerary_assemble.
  apply assemble_filter.
Qed.

(** C2.  The export path does not do what the timeline path does.  For
    the batch (park, cafe, and a line between them whose [transport]
    and [travelTime] are empty), the leg is found by the lookup, it is
    not a child of the timeline, it is an entry of the exported
    itinerary, and the document has a line reading Travel for it. *)
Theorem C2_export_keeps_content_free_leg :
  let s' := exec (sendText Browser.host
                    (Answered [CallLocation Sample.parkArgs;
                               CallLocation Sample.cafeArgs;
                               CallLine Sample.quietArgs])) Sample.noMap in
  hasContent Sample.quiet = false
  /\ dayPlanItinerary s' = [Sample.park; Sample.cafe]
  /\ lines s' = [Sample.quiet]
  /\ connectingLine (lines s') Sample.park Sample.cafe = Some Sample.quiet
  /\ timeline s' = [LocationItem 0 Sample.park; LocationItem 1 Sample.cafe]
  /\ fullItinerary (lines s') (dayPlanItinerary s')
     = [location Sample.park; transport Sample.quiet; location Sample.cafe]
  /\ drawsText "Travel" (exportDayPlan (Browser.pdf 842) s') = true.
Proof. vm_compute. repeat split. Qed.

(* ================================================================= *)
(** * Processing a batch: [setPin], [setLeg], [sendText] *)

Section Batch.
Variable host : Host.

(** [setPin] in full: what it returns and the state it leaves. *)
Lemma setPin_run (args : LocationArgs.t) (s : State) :
  setPin host args s
  = let s1 := set_points (fun l => l ++ [pointOf args]) s in
    let push marker s2 :=
      let s3 := set_popUps (fun l => l ++ [locationInfo args marker]) s2 in
      if truthy (LocationArgs.time args)
      then set_dayPlanItinerary (fun l => l ++ [locationInfo args marker]) s3
      else s3 in
    if isMapInitialized s then
      match latLngError host (pointOf args) with
      | Some message => (Throw message, s1)
      | None =>
          (Return tt,
           push (markerOf true args)
             (set_markers
                (fun l => l ++ [Marker.mk (pointOf args) (LocationArgs.name args)])
                (set_bounds (fun b => b ++ [pointOf args]) s1)))
      end
    else (Return tt, push None s1).
Proof.
  unfold setPin, bind, modify, get, when, ret, bounds_extend, L_marker,
    map_panTo, toLatLng, throw, bind, markerOf.
  cbn [isMapInitialized set_points].
  destruct (isMapInitialized s).
  - destruct (latLngError host (pointOf args)); cbn.
    + reflexivity.
    + destruct (truthy (LocationArgs.time args)); reflexivity.
  - destruct (truthy (LocationArgs.time args)); reflexivity.
Qed.

Lemma setLeg_run (args : LineArgs.t) (s : State) :
  setLeg host args s
  = let s1 := set_points (fun l => l ++ [startOf args; endOf args]) s in
    let push s2 := set_lines (fun l => l ++ [legOf args]) s2 in
    if isMapInitialized s then
      match latLngError host (startOf args) with
      | Some message => (Throw message, s1)
      | None =>
          let s2 := set_bounds (fun b => b ++ [startOf args]) s1 in
          match latLngError host (endOf args) with
          | Some message => (Throw message, s2)
          | None =>
              (Return tt,
               push (set_bounds (fun b => b ++ [endOf args]) s2))
          end
      end
    else (Return tt, push s1).
Proof.
  unfold setLeg, bind, modify, get, when, ret, bounds_extend, L_polyline,
    toLatLng, throw, bind.
  cbn [isMapInitialized set_points].
  destruct (isMapInitialized s).
  - destruct (latLngError host (startOf args)); cbn; [reflexivity|].
    destruct (latLngError host (endOf args)); cbn; reflexivity.
  - reflexivity.
Qed.

Lemma Absorbed_nil (s : State) : Absorbed s s [].
Proof.
  constructor; cbn; rewrite ?app_nil_r; try reflexivity.
  now destruct (isMapInitialized s); rewrite app_nil_r.
Qed.

Lemma Absorbed_app (s s1 s2 : State) (xs ys : list FunctionCall) :
  Absorbed s s1 xs -> Absorbed s1 s2 ys -> Absorbed s s2 (xs ++ ys).
Proof.
  intros [H1 H2 H3 H4 H5 H6 H7 H8] [K1 K2 K3 K4 K5 K6 K7 K8].
  unfold locationsOf, linesOf, boundsOf in *.
  rewrite H1 in *.
  constructor; unfold locationsOf, linesOf, boundsOf;
    rewrite ?flat_map_app, ?map_app, ?filter_app; try congruence.
  - rewrite K2, H2. now rewrite <- app_assoc.
  - rewrite K3, H3. now rewrite <- app_assoc.
  - rewrite K4, H4. now rewrite <- app_assoc.
  - rewrite K5, H5. destruct (isMapInitialized s);
      now rewrite <- ?app_assoc, ?app_nil_r.
Qed.

Lemma processCall_accepted (fn : FunctionCall) (s : State) :
  accepts host s [fn] ->
  fst (processCall host fn s) = Return tt
  /\ Absorbed s (snd (processCall host fn s)) [fn].
Proof.
  intros Hacc. destruct fn as [args|args|name]; cbn [processCall].
  - rewrite setPin_run. cbv zeta.
    destruct (isMapInitialized s) eqn:Hmap.
    + destruct Hacc as [Hacc|Hacc]; [congruence|].
      rewrite (Hacc (pointOf args)) by (cbn; auto).
      split; [reflexivity|].
      destruct (truthy (LocationArgs.time args)) eqn:Ht;
        constructor; cbn; rewrite ?Hmap; unfold hasTime; cbn;
        rewrite ?Ht, ?app_nil_r; reflexivity.
    + split; [reflexivity|].
      unfold hasTime.
      destruct (truthy (LocationArgs.time args)) eqn:Ht;
        constructor; cbn; rewrite ?Hmap; unfold hasTime; cbn;
        rewrite ?Ht, ?app_nil_r; reflexivity.
  - rewrite setLeg_run. cbv zeta.
    destruct (isMapInitialized s) eqn:Hmap.
    + destruct Hacc as [Hacc|Hacc]; [congruence|].
      rewrite (Hacc (startOf args)), (Hacc (endOf args)) by (cbn; auto).
      split; [reflexivity|].
      constructor; cbn; rewrite ?Hmap, ?app_nil_r, <- ?app_assoc;
        reflexivity.
    + split; [reflexivity|].
      constructor; cbn; rewrite ?Hmap, ?app_nil_r; reflexivity.
  - split; [reflexivity|].
    constructor; cbn; rewrite ?app_nil_r; try reflexivity.
    now destruct (isMapInitialized s); rewrite app_nil_r.
Qed.

Lemma accepts_cons (fn : FunctionCall) (calls : list FunctionCall)
    (s s1 : State) :
  accepts host s (fn :: calls) ->
  isMapInitialized s1 = isMapInitialized s ->
  accepts host s [fn] /\ accepts host s1 calls.
Proof.
  intros [H|H] Hmap.
  - split; left; congruence.
  - split; right; intros p Hp; apply H;
      change (fn :: calls) with ([fn] ++ calls);
      unfold boundsOf in *; rewrite flat_map_app; apply in_or_app; auto.
Qed.

(** A batch on which Leaflet does not throw runs to its end. *)
Lemma for_of_accepted (calls : list FunctionCall) (s : State) :
  accepts host s calls ->
  fst (for_of calls (processCall host) s) = Return tt
  /\ Absorbed s (snd (for_of calls (processCall host) s)) calls.
Proof.
  revert s. induction calls as [|fn calls IH]; intros s Hacc.
  - split; [reflexivity|apply Absorbed_nil].
  - cbn [for_of]. unfold bind.
    destruct (processCall host fn s) as [[[]|e] s1] eqn:Hfn.
    + assert (Absorbed s s1 [fn]) as Habs.
      { destruct (accepts_cons fn calls s s Hacc eq_refl) as [H1 _].
        pose proof (processCall_accepted fn s H1) as [_ H].
        now rewrite Hfn in H. }
      destruct (accepts_cons fn calls s s1 Hacc (absorbed_map _ _ _ Habs))
        as [_ H2].
      destruct (IH s1 H2) as [Hret Hrest].
      split; [exact Hret|].
      change (fn :: calls) with ([fn] ++ calls).
      eapply Absorbed_app; eauto.
    + destruct (accepts_cons fn calls s s Hacc eq_refl) as [H1 _].
      pose proof (processCall_accepted fn s H1) as [H _].
      rewrite Hfn in H. discriminate.
Qed.

(** *** What holds of every run *)

Lemma for_of_invariant {A} (P : State -> Prop) (body : A -> M unit) :
  (forall x s, P s -> P (snd (body x s))) ->
  forall xs s, P s -> P (snd (for_of xs body s)).
Proof.
  intros Hbody xs. induction xs as [|x xs IH]; intros s Hs; [exact Hs|].
  cbn [for_of]. unfold bind.
  specialize (Hbody x s Hs).
  destruct (body x s) as [[[]|e] s1]; cbn [snd] in *; auto.
Qed.


End Batch.

(* ================================================================= *)
(** * [Array.prototype.sort]: the result is a permutation *)

Section SortPermutation.
Context {A : Type}.
Variable comparefn : A -> A -> JS.number.

Lemma insert_Permutation (x : A) (l : list A) :
  Permutation (insert comparefn x l) (x :: l).
Proof.
  induction l as [|y l IH]; simpl; [reflexivity|].
  destruct (JS.gt0 (comparefn x y)); [|reflexivity].
  rewrite IH. apply perm_swap.
Qed.

Lemma Array_sort_Permutation (l : list A) :
  Permutation (Array_sort comparefn l) l.
Proof.
  induction l as [|x l IH]; simpl; [reflexivity|].
  rewrite insert_Permutation. now constructor.
Qed.

Lemma Array_sort_length (l : list A) :
  List.length (Array_sort comparefn l) = List.length l.
Proof. apply Permutation_length, Array_sort_Permutation. Qed.

End SortPermutation.

(* ================================================================= *)
(** * [sendText] *)

Section SendText.
Variable host : Host.

Lemma restart_run (s : State) :
  (modify (set_errorMessage "") ;; restart) s = (Return tt, fresh s).
Proof.
  unfold restart, bind, modify, get, when, hideTimeline, ret, fresh.
  destruct s as [mapInit ? ? ? ? ? ? ? visible ?]. cbn.
  destruct mapInit, visible; reflexivity.
Qed.

Lemma sendText_run (response : Response) (s : State) :
  sendText host response s
  = try_catch (processResponse host response) showFailure (fresh s).
Proof.
  pose proof (restart_run s) as H.
  unfold sendText, bind, modify in *.
  destruct (restart (set_errorMessage "" s)) as [[[]|e] s'];
    [|discriminate].
  injection H as ->. reflexivity.
Qed.

(** [sendText] never throws: what its [try] block throws is caught. *)
Lemma sendText_returns (response : Response) (s : State) :
  fst (sendText host response s) = Return tt.
Proof.
  rewrite sendText_run. unfold try_catch.
  destruct (processResponse host response (fresh s)) as [[[]|e] s'];
    reflexivity.
Qed.

(** The end of the [try] block, after the loop over the calls. *)
Lemma showPlan_run (s : State) :
  (s0 <- get ;;
   when (0 <? List.length (dayPlanItinerary s0))%nat
     (modify (set_dayPlanItinerary (buildDayPlan host)) ;;
      createTimeline ;;
      showTimeline)) s
  = (Return tt, shownPlan host s).
Proof.
  unfold shownPlan, bind, get, when, modify, createTimeline, showTimeline,
    ret, bind, get.
  destruct (0 <? List.length (dayPlanItinerary s))%nat eqn:Hlen;
    [|reflexivity].
  cbn [dayPlanItinerary set_dayPlanItinerary lines].
  unfold buildDayPlan at 1. rewrite Array_sort_length.
  apply Nat.ltb_lt in Hlen.
  destruct (List.length (dayPlanItinerary s) =? 0)%nat eqn:H0;
    [apply Nat.eqb_eq in H0; lia|].
  reflexivity.
Qed.

Lemma processResponse_run (calls : list FunctionCall) (s : State) :
  calls <> [] ->
  processResponse host (Answered calls) s
  = match for_of calls (processCall host) s with
    | (Return _, s') => (Return tt, shownPlan host s')
    | (Throw e, s') => (Throw e, s')
    end.
Proof.
  intros Hne. unfold processResponse.
  destruct calls as [|fn calls]; [congruence|].
  cbn [List.length Nat.eqb].
  unfold bind at 1. unfold ret at 1.
  unfold bind at 1.
  destruct (for_of (fn :: calls) (processCall host) s) as [[[]|e] s'];
    [|reflexivity].
  apply showPlan_run.
Qed.

End SendText.

Section SendTextOutcome.
Variable host : Host.






End SendTextOutcome.


(** A batch with a record that has no time: the lake is on [popUps] and
    not in the day plan. *)
Example sendText_lake :
  let s' := exec (sendText Browser.host
                    (Answered
                       [CallLocation Sample.parkArgs;
                        CallLocation Sample.lakeArgs;
                        CallLocation Sample.cafeArgs])) Sample.noMap in
  popUps s' = [Sample.park; Sample.lake; Sample.cafe]
  /\ dayPlanItinerary s' = [Sample.park; Sample.cafe].
Proof. vm_compute. auto. Qed.

(* ================================================================= *)
(** * A record whose latitude is not numeric *)

Section Malformed.
Variable host : Host.



End Malformed.

(** Whatever the answer, the state and the host, [sendText] returns:
    an error thrown in its [try] block ends in the [catch] block. *)
Theorem sendText_never_throws (host : Host) (response : Response) (s : State) :
  fst (sendText host response s) = Return tt.
Proof. apply sendText_returns. Qed.




(* ================================================================= *)
(** * The page walk on a degenerate page *)

Section DegeneratePage.
Import Pdf.
Local Open Scope Q_scope.
Variable host : Pdf.Host.
Hypothesis height_nonneg :
  forall d lines, 0 <= getTextDimensions_h host d lines.
Hypothesis degenerate : pageHeight host - 2 * margin <= 0.

Lemma checkPageBreak_degenerate (d : doc) (y h : Q) :
  margin <= y -> 0 <= h ->
  checkPageBreak host (d, y) (40 + h) = (d ++ [addPage], margin).
Proof.
  intros Hy Hh. unfold checkPageBreak.
  destruct (Qle_bool (y + (40 + h)) (pageHeight host - margin)) eqn:Hle;
    [|reflexivity].
  apply Qle_bool_iff in Hle. unfold margin in *. lra.
Qed.


Lemma drawLocation_block (data : Stop.t) (d : doc) :
  exists rest,
    fst (drawLocation host data (d, margin)) = d ++ rest
    /\ In (text [Stop.name data] contentX margin) rest
    /\ ~ In addPage rest
    /\ margin <= snd (drawLocation host data (d, margin)).
Proof.
  unfold drawLocation.
  set (d1 := d ++ _).
  set (lines := splitTextToSize host d1 (Stop.description data)
                  (contentWidth host)).
  set (d2 := d1 ++ _).
  destruct (truthy (Stop.duration data));
    cbn [fst snd]; subst d2 d1; rewrite <- !app_assoc;
    (eexists; split; [reflexivity|]); cbn [app];
    (split; [cbn; auto 10|]);
    (split; [cbn; intuition discriminate|]);
    match goal with
    | |- context [getTextDimensions_h host ?a ?b] =>
        pose proof (height_nonneg a b)
    end;
    unfold margin in *; lra.
Qed.

Lemma drawTransport_block (data : Leg.t) (d : doc) :
  exists rest,
    fst (drawTransport host data (d, margin)) = d ++ rest
    /\ In (text [transportText host data] contentX margin) rest
    /\ ~ In addPage rest
    /\ margin <= snd (drawTransport host data (d, margin)).
Proof.
  unfold drawTransport.
  destruct (truthy (Leg.travelTime data));
    cbn [fst snd]; rewrite <- ?app_assoc;
    (eexists; split; [reflexivity|]); cbn [app];
    (split; [cbn; auto 10|]);
    (split; [cbn; intuition discriminate|]);
    unfold margin; lra.
Qed.

(** Every entry starts a page. *)
Lemma drawItem_degenerate (len : nat) (c : cursor) (index : nat)
    (item : ItineraryItem) :
  margin <= snd c ->
  exists block,
    fst (drawItem host len c (index, item)) = fst c ++ block
    /\ onNewPage host item block
    /\ margin <= snd (drawItem host len c (index, item)).
Proof.
  destruct c as [d y]. cbn [fst snd]. intros Hy.
  unfold drawItem. cbn [fst snd].
  rewrite checkPageBreak_degenerate by (auto using height_nonneg).
  cbn [snd].
  assert (exists rest y',
             (match item with
              | location data => drawLocation host data (d ++ [addPage], margin)
              | transport data => drawTransport host data (d ++ [addPage], margin)
              end) = (d ++ addPage :: rest, y')
             /\ In (text [titleOf host item] contentX margin) rest
             /\ ~ In addPage rest
             /\ margin <= y') as (rest & y' & -> & Hin & Hnp & Hy').
  { destruct item as [data|data]; cbn [titleOf].
    - destruct (drawLocation_block data (d ++ [addPage]))
        as (rest & Hd & Hin & Hnp & Hy').
      exists rest, (snd (drawLocation host data (d ++ [addPage], margin))).
      split; [|auto].
      rewrite (surjective_pairing (drawLocation host data _)) at 1.
      f_equal. etransitivity; [exact Hd|]. now rewrite <- app_assoc.
    - destruct (drawTransport_block data (d ++ [addPage]))
        as (rest & Hd & Hin & Hnp & Hy').
      exists rest, (snd (drawTransport host data (d ++ [addPage], margin))).
      split; [|auto].
      rewrite (surjective_pairing (drawTransport host data _)) at 1.
      f_equal. etransitivity; [exact Hd|]. now rewrite <- app_assoc. }
  destruct (index <? len - 1)%nat; cbn [fst snd].
  - rewrite <- app_assoc. cbn [app].
    eexists. split; [reflexivity|]. split; [|exact Hy'].
    eexists. split; [reflexivity|]. split.
    + apply in_or_app. now left.
    + intros H. apply in_app_or in H as [H|H]; [auto|].
      cbn in H. intuition discriminate.
  - eexists. split; [reflexivity|]. split; [|exact Hy'].
    exists rest. auto.
Qed.

Lemma walk_degenerate (len : nat) (es : list (nat * ItineraryItem))
    (c : cursor) :
  margin <= snd c ->
  exists blocks,
    fst (fold_left (drawItem host len) es c) = fst c ++ List.concat blocks
    /\ Forall2 (onNewPage host) (map snd es) blocks.
Proof.
  revert c. induction es as [|[index item] es IH]; intros c Hc.
  - exists []. cbn. rewrite app_nil_r. auto.
  - cbn [fold_left map snd].
    destruct (drawItem_degenerate len c index item Hc)
      as (block & Hd & Hb & Hy).
    destruct (IH _ Hy) as (blocks & Hds & Hbs).
    exists (block :: blocks). split.
    + rewrite Hds, Hd. cbn [List.concat]. now rewrite app_assoc.
    + constructor; assumption.
Qed.

Lemma map_snd_entries {A} (l : list A) : map snd (entries l) = l.
Proof.
  unfold entries. generalize 0%nat.
  induction l as [|x l IH]; intros k; [reflexivity|].
  cbn. now rewrite IH.
Qed.

End DegeneratePage.

(** C8.  On a page whose height leaves nothing between the two margins
    ([pageHeight - 2 * margin <= 0], the margin being the 20 points of
    the code), and with text heights that are not negative, the walk
    over any itinerary returns a document: the one it was given, the
    heading, and one block of calls per entry, in order; each block
    starts with a page break and has no other, and has the entry's
    title at the margin of the new page. *)
Theorem C8_degenerate_page_breaks_before_every_entry
    (host : Pdf.Host) (d : Pdf.doc) (fullItinerary : list ItineraryItem) :
  (forall d' lines, (0 <= Pdf.getTextDimensions_h host d' lines)%Q) ->
  (Pdf.pageHeight host - 2 * Pdf.margin <= 0)%Q ->
  exists blocks,
    Pdf.drawItineraryOnPdf host d fullItinerary
    = d ++ Pdf.heading ++ List.concat blocks
    /\ Forall2 (Pdf.onNewPage host) fullItinerary blocks.
Proof.
  intros Hh Hdeg. unfold Pdf.drawItineraryOnPdf.
  destruct (walk_degenerate host Hh Hdeg (List.length fullItinerary)
              (entries fullItinerary) (d ++ Pdf.heading, (40 + 25)%Q))
    as (blocks & Hd & Hb).
  - cbn [snd]. unfold Pdf.margin. lra.
  - exists blocks. rewrite map_snd_entries in Hb. split; [|exact Hb].
    rewrite Hd. cbn [fst]. now rewrite <- app_assoc.
Qed.

Lemma Browser_pdf_height_nonneg (height : Q) (d : Pdf.doc) (lines : list string) :
  (0 <= Pdf.getTextDimensions_h (Browser.pdf height) d lines)%Q.
Proof.
  cbn. apply Qmult_le_0_compat; [discriminate|].
  unfold Qle; cbn. lia.
Qed.

(** A page of 30 points, and the itinerary (park, walk, cafe): three
    page breaks. *)
Lemma C8_witness :
  (forall d lines,
     (0 <= Pdf.getTextDimensions_h (Browser.pdf 30) d lines)%Q)
  /\ (Pdf.pageHeight (Browser.pdf 30) - 2 * Pdf.margin <= 0)%Q
  /\ exists blocks,
       Pdf.drawItineraryOnPdf (Browser.pdf 30) []
         [location Sample.park; transport Sample.walk; location Sample.cafe]
       = [] ++ Pdf.heading ++ List.concat blocks
       /\ Forall2 (Pdf.onNewPage (Browser.pdf 30))
            [location Sample.park; transport Sample.walk; location Sample.cafe]
            blocks.
Proof.
  assert (Pdf.pageHeight (Browser.pdf 30) - 2 * Pdf.margin <= 0)%Q as Hdeg
    by (vm_compute; discriminate).
  split; [apply Browser_pdf_height_nonneg|].
  split; [exact Hdeg|].
  apply C8_degenerate_page_breaks_before_every_entry;
    [apply Browser_pdf_height_nonneg|exact Hdeg].
Defined.

(* ================================================================= *)
(** * The order of numbers *)

Module NumberOrder.

Ltac by_cases :=
  repeat match goal with
         | H : context [Pos.compare_cont Eq ?a ?b] |- _ =>
             change (Pos.compare_cont Eq a b) with (Pos.compare a b) in H
         | |- context [Pos.compare_cont Eq ?a ?b] =>
             change (Pos.compare_cont Eq a b) with (Pos.compare a b)
         end;
  repeat match goal with
         | H : context [Z.compare ?a ?b] |- _ =>
             destruct (Z.compare_spec a b); cbn in H
         | |- context [Z.compare ?a ?b] =>
             destruct (Z.compare_spec a b); cbn
         | H : context [Pos.compare ?a ?b] |- _ =>
             destruct (Pos.compare_spec a b); cbn in H
         | |- context [Pos.compare ?a ?b] =>
             destruct (Pos.compare_spec a b); cbn
         end;
  subst; try reflexivity; try discriminate; try lia.

Lemma compare_antisym (x y : JS.number) :
  SFcompare y x = option_map CompOpp (SFcompare x y).
Proof.
  destruct x as [sx|sx| |sx mx ex], y as [sy|sy| |sy my ey];
    try reflexivity;
    try (destruct sx; reflexivity); try (destruct sy; reflexivity);
    try (destruct sx, sy; reflexivity).
  destruct sx, sy; cbn; try reflexivity; by_cases.
Qed.

Lemma compare_notNaN (x y : JS.number) :
  JS.isNaN x = false -> JS.isNaN y = false -> SFcompare x y <> None.
Proof.
  destruct x as [sx|sx| |sx mx ex], y as [sy|sy| |sy my ey];
    cbn; intros Hx Hy; try discriminate.
Qed.

Lemma leb_trans (x y z : JS.number) :
  SFleb x y = true -> SFleb y z = true -> SFleb x z = true.
Proof.
  unfold SFleb.
  destruct x as [sx|sx| |sx mx ex], y as [sy|sy| |sy my ey],
           z as [sz|sz| |sz mz ez];
    try discriminate; try reflexivity;
    repeat match goal with s : bool |- _ => destruct s end;
    cbn; intros Hxy Hyz; try reflexivity; try discriminate;
    by_cases.
Qed.

(** [SFcompare] in terms of [SFleb]. *)
Lemma compare_leb (x y : JS.number) :
  JS.isNaN x = false -> JS.isNaN y = false ->
  SFcompare x y
  = Some (if SFleb x y then if SFleb y x then Eq else Lt else Gt).
Proof.
  intros Hx Hy. unfold SFleb. rewrite (compare_antisym x y).
  pose proof (compare_notNaN x y Hx Hy).
  destruct (SFcompare x y) as [[]|]; cbn; congruence.
Qed.

End NumberOrder.

(* ================================================================= *)
(** * [Array.prototype.sort] with a comparator that orders *)

Section SortOrder.
Context {A : Type}.
Variable comparefn : A -> A -> JS.number.
Variable le : A -> A -> bool.
Variable P : A -> Prop.

Hypothesis comparefn_le :
  forall x y, P x -> P y -> JS.gt0 (comparefn x y) = negb (le x y).
Hypothesis le_total : forall x y, le x y = true \/ le y x = true.
Hypothesis le_trans :
  forall x y z, le x y = true -> le y z = true -> le x z = true.

Lemma insert_Forall (Q : A -> Prop) (x : A) (l : list A) :
  Q x -> Forall Q l -> Forall Q (insert comparefn x l).
Proof.
  intros Hx Hl. apply Forall_forall. intros y Hy.
  apply (Permutation_in _ (insert_Permutation comparefn x l)) in Hy.
  destruct Hy as [<-|Hy]; [assumption|].
  now apply (proj1 (Forall_forall Q l) Hl).
Qed.

Lemma Array_sort_Forall (Q : A -> Prop) (l : list A) :
  Forall Q l -> Forall Q (Array_sort comparefn l).
Proof.
  intros Hl. apply Forall_forall. intros y Hy.
  apply (Permutation_in _ (Array_sort_Permutation comparefn l)) in Hy.
  now apply (proj1 (Forall_forall Q l) Hl).
Qed.

Lemma insert_sorted (x : A) (l : list A) :
  P x -> Forall P l ->
  StronglySorted (fun a b => le a b = true) l ->
  StronglySorted (fun a b => le a b = true) (insert comparefn x l).
Proof.
  intros Hx Hl Hs. induction Hs as [|y l Hs IH Hy]; cbn [insert].
  - repeat constructor.
  - inversion Hl as [|? ? Py Pl]; subst.
    rewrite comparefn_le by assumption.
    destruct (le x y) eqn:Hxy; cbn [negb].
    + constructor; [now constructor|].
      constructor; [assumption|].
      eapply Forall_impl; [|exact Hy]. intros z Hz. eauto.
    + constructor; [now apply IH|].
      apply insert_Forall; [|assumption].
      destruct (le_total x y); congruence.
Qed.

Lemma Array_sort_sorted (l : list A) :
  Forall P l ->
  StronglySorted (fun a b => le a b = true) (Array_sort comparefn l).
Proof.
  induction l as [|x l IH]; intros Hl; cbn [Array_sort fold_right].
  - constructor.
  - inversion Hl; subst. fold (Array_sort comparefn l).
    apply insert_sorted; auto. now apply Array_sort_Forall.
Qed.

(** Stability: among the elements of one key, the order of arrival
    is kept. *)
Lemma insert_stable (z x : A) (l : list A) :
  P x -> Forall P l ->
  filter (fun y => le z y && le y z) (insert comparefn x l)
  = filter (fun y => le z y && le y z) (x :: l).
Proof.
  intros Hx Hl. induction l as [|y l IH]; [reflexivity|].
  inversion Hl as [|? ? Py Pl]; subst.
  cbn [insert]. rewrite comparefn_le by assumption.
  destruct (le x y) eqn:Hxy; cbn [negb]; [reflexivity|].
  cbn [filter] in *. rewrite (IH Pl).
  destruct (le z y && le y z) eqn:Hzy; [|reflexivity].
  destruct (le z x && le x z) eqn:Hzx; [|reflexivity].
  apply andb_true_iff in Hzy as [Hzy _], Hzx as [_ Hxz].
  rewrite (le_trans x z y Hxz Hzy) in Hxy. discriminate.
Qed.

Lemma Array_sort_stable (z : A) (l : list A) :
  Forall P l ->
  filter (fun y => le z y && le y z) (Array_sort comparefn l)
  = filter (fun y => le z y && le y z) l.
Proof.
  induction l as [|x l IH]; intros Hl; [reflexivity|].
  inversion Hl; subst. cbn [Array_sort fold_right].
  fold (Array_sort comparefn l).
  rewrite insert_stable by (auto using Array_sort_Forall).
  cbn [filter]. now rewrite IH.
Qed.

(** A sorted list that keeps the order of arrival within each key is
    the one [Array_sort] returns: the choice of the sorting algorithm
    does not show. *)
Lemma le_refl (x : A) : le x x = true.
Proof. destruct (le_total x x); assumption. Qed.

Lemma stable_sorted_unique (l1 l2 : list A) :
  StronglySorted (fun a b => le a b = true) l1 ->
  StronglySorted (fun a b => le a b = true) l2 ->
  (forall z, filter (fun y => le z y && le y z) l1
             = filter (fun y => le z y && le y z) l2) ->
  l1 = l2.
Proof.
  intros H1. revert l2.
  induction H1 as [|x l1 H1 IH Hx]; intros l2 H2 Hf.
  - destruct l2 as [|y l2]; [reflexivity|].
    specialize (Hf y). cbn in Hf. rewrite le_refl in Hf. discriminate.
  - destruct H2 as [|y l2 H2 Hy].
    + specialize (Hf x). cbn in Hf. rewrite le_refl in Hf. discriminate.
    + assert (le y x = true) as Hyx.
      { pose proof (Hf x) as Hfx. cbn [filter] in Hfx.
        rewrite le_refl in Hfx. cbn [andb] in Hfx.
        destruct (le x y && le y x) eqn:E.
        - now apply andb_true_iff in E.
        - assert (In x (filter (fun y0 => le x y0 && le y0 x) l2)) as Hin
            by (rewrite <- Hfx; now left).
          apply filter_In in Hin as [Hin _].
          exact (proj1 (Forall_forall _ _) Hy x Hin). }
      assert (le x y = true) as Hxy.
      { pose proof (Hf y) as Hfy. cbn [filter] in Hfy.
        rewrite (le_refl y) in Hfy. cbn [andb] in Hfy.
        destruct (le y x && le x y) eqn:E.
        - now apply andb_true_iff in E.
        - assert (In y (filter (fun y0 => le y y0 && le y0 y) l1)) as Hin
            by (rewrite Hfy; now left).
          apply filter_In in Hin as [Hin _].
          exact (proj1 (Forall_forall _ _) Hx y Hin). }
      assert (x = y) as ->.
      { pose proof (Hf x) as Hfx. cbn [filter] in Hfx.
        rewrite le_refl, Hxy, Hyx in Hfx. cbn [andb] in Hfx.
        now injection Hfx. }
      f_equal. apply IH; [assumption|].
      intros z. specialize (Hf z). cbn [filter] in Hf.
      destruct (le z y && le y z); [now injection Hf|assumption].
Qed.

Lemma Array_sort_unique (l sorted : list A) :
  Forall P l ->
  StronglySorted (fun a b => le a b = true) sorted ->
  (forall z, filter (fun y => le z y && le y z) sorted
             = filter (fun y => le z y && le y z) l) ->
  sorted = Array_sort comparefn l.
Proof.
  intros Hl Hs Hf. apply stable_sorted_unique.
  - assumption.
  - now apply Array_sort_sorted.
  - intros z. now rewrite Hf, Array_sort_stable.
Qed.

End SortOrder.

(** Two comparators that agree on the elements of the list sort it the
    same way. *)
Lemma Array_sort_ext {A} (f g : A -> A -> JS.number) (l : list A) :
  (forall x y, In x l -> In y l -> JS.gt0 (f x y) = JS.gt0 (g x y)) ->
  Array_sort f l = Array_sort g l.
Proof.
  induction l as [|x l IH]; intros H; [reflexivity|].
  cbn [Array_sort fold_right]. fold (Array_sort f l) (Array_sort g l).
  rewrite <- IH by (intros; apply H; now right).
  assert (forall y, In y (Array_sort f l) -> In y l) as Hin
    by (intros y; apply Permutation_in, Array_sort_Permutation).
  clear IH. induction (Array_sort f l) as [|y s IHs]; [reflexivity|].
  cbn [insert]. rewrite H; [|now left|right; apply Hin; now left].
  destruct (JS.gt0 (g x y)); [|reflexivity].
  f_equal. apply IHs. intros; apply Hin; now right.
Qed.

(** The sort commutes with a map that the comparator does not see. *)
Lemma Array_sort_map {A} (f : A -> A -> JS.number) (h : A -> A) (l : list A) :
  (forall x y, f (h x) (h y) = f x y) ->
  Array_sort f (map h l) = map h (Array_sort f l).
Proof.
  intros H. induction l as [|x l IH]; [reflexivity|].
  cbn [map Array_sort fold_right].
  fold (Array_sort f (map h l)) (Array_sort f l). rewrite IH.
  clear IH. induction (Array_sort f l) as [|y s IHs]; [reflexivity|].
  cbn [map insert]. rewrite H.
  destruct (JS.gt0 (f x y)); [|reflexivity].
  cbn [map]. now rewrite IHs.
Qed.

Lemma StronglySorted_suffix {A} (R : A -> A -> Prop) (l1 l2 : list A) :
  StronglySorted R (l1 ++ l2) -> StronglySorted R l2.
Proof.
  induction l1 as [|x l1 IH]; [auto|].
  cbn [app]. intros H. inversion H; subst. auto.
Qed.

(* ================================================================= *)
(** * The comparator of the day plan *)

Section KeyOrder.
Variable host : Host.

Lemma sequenceKey_truthy (st : Stop.t) : JS.truthy (sequenceKey st) = true.
Proof.
  unfold sequenceKey, sequenceOrInfinity.
  destruct (Stop.sequence st) as [[]|]; reflexivity.
Qed.

Lemma sequenceKey_notNaN (st : Stop.t) : JS.isNaN (sequenceKey st) = false.
Proof.
  pose proof (sequenceKey_truthy st).
  destruct (sequenceKey st); try reflexivity; discriminate.
Qed.

Lemma sequenceKey_valid (st : Stop.t) :
  validSequence st = true -> JS.valid (sequenceKey st) = true.
Proof.
  unfold validSequence, sequenceKey, sequenceOrInfinity.
  destruct (Stop.sequence st) as [[]|]; auto.
Qed.

Lemma signOf_signs (d : JS.number) (s : bool) :
  JS.signOf d = Some s ->
  JS.truthy d = true /\ JS.gt0 d = negb s /\ JS.lt0 d = s.
Proof.
  destruct d as [| [] | | [] ]; cbn; intros H; try discriminate;
    injection H as <-; auto.
Qed.

Lemma lt0_gt0 (v : JS.number) : JS.lt0 v = true -> JS.gt0 v = false.
Proof. destruct v as [| [] | | [] ]; cbn; congruence. Qed.

(** The comparator puts [a] after [b] exactly where [a]'s key is not
    at or before [b]'s. *)
Lemma compareStops_gt0 (a b : Stop.t) :
  validSequence a = true -> validSequence b = true ->
  JS.gt0 (compareStops host a b) = negb (keyLe host a b).
Proof.
  intros Va Vb.
  pose proof (Binary64.sub_sign (sequenceKey a) (sequenceKey b)
                (sequenceKey_valid a Va) (sequenceKey_valid b Vb)
                (sequenceKey_truthy a) (sequenceKey_truthy b)) as Hsub.
  unfold compareStops, keyLe, JS.lt, JS.strict_eq, SFltb, SFeqb.
  fold (sequenceKey a) (sequenceKey b) (timeKey a) (timeKey b).
  destruct (SFcompare (sequenceKey a) (sequenceKey b)) as [[]|];
    [| | |contradiction].
  - rewrite Hsub. cbn. now rewrite negb_involutive.
  - destruct (signOf_signs _ _ Hsub) as (-> & -> & _). reflexivity.
  - destruct (signOf_signs _ _ Hsub) as (-> & -> & _). reflexivity.
Qed.

(** The key order in terms of "at or before" on sequence keys and on
    times. *)
Lemma keyLe_leb (a b : Stop.t) :
  keyLe host a b
  = SFleb (sequenceKey a) (sequenceKey b)
    && (negb (SFleb (sequenceKey b) (sequenceKey a))
        || negb (JS.gt0 (localeCompare host (timeKey a) (timeKey b)))).
Proof.
  unfold keyLe, JS.lt, JS.strict_eq, SFltb, SFeqb.
  rewrite (NumberOrder.compare_leb (sequenceKey a) (sequenceKey b))
    by apply sequenceKey_notNaN.
  destruct (SFleb (sequenceKey a) (sequenceKey b)),
           (SFleb (sequenceKey b) (sequenceKey a)); reflexivity.
Qed.

Lemma leb_total (x y : JS.number) :
  JS.isNaN x = false -> JS.isNaN y = false ->
  SFleb x y = true \/ SFleb y x = true.
Proof.
  intros Hx Hy. pose proof (NumberOrder.compare_notNaN x y Hx Hy) as H.
  pose proof (NumberOrder.compare_antisym x y) as Ha.
  unfold SFleb in *.
  destruct (SFcompare x y) as [[]|]; cbn in Ha; rewrite Ha; cbn; auto;
    congruence.
Qed.

Hypothesis collation : Consistent (localeCompare host).

Lemma keyLe_total (a b : Stop.t) :
  keyLe host a b = true \/ keyLe host b a = true.
Proof.
  rewrite !keyLe_leb.
  destruct (leb_total (sequenceKey a) (sequenceKey b)
              (sequenceKey_notNaN a) (sequenceKey_notNaN b)) as [H|H];
    rewrite H;
    [destruct (SFleb (sequenceKey b) (sequenceKey a))
    |destruct (SFleb (sequenceKey a) (sequenceKey b))]; cbn; auto.
  - destruct (JS.gt0 (localeCompare host (timeKey a) (timeKey b))) eqn:Hg;
      cbn; auto.
    rewrite (consistent_antisym _ collation) in Hg.
    rewrite (lt0_gt0 _ Hg). auto.
  - destruct (JS.gt0 (localeCompare host (timeKey a) (timeKey b))) eqn:Hg;
      cbn; auto.
    rewrite (consistent_antisym _ collation) in Hg.
    rewrite (lt0_gt0 _ Hg). auto.
Qed.

Lemma keyLe_trans (a b c : Stop.t) :
  keyLe host a b = true -> keyLe host b c = true -> keyLe host a c = true.
Proof.
  rewrite !keyLe_leb. intros Hab Hbc.
  apply andb_true_iff in Hab as [Lab Tab], Hbc as [Lbc Tbc].
  rewrite (NumberOrder.leb_trans _ _ _ Lab Lbc). cbn [andb].
  destruct (SFleb (sequenceKey c) (sequenceKey a)) eqn:Lca; [|reflexivity].
  rewrite (NumberOrder.leb_trans _ _ _ Lbc Lca) in Tab.
  rewrite (NumberOrder.leb_trans _ _ _ Lca Lab) in Tbc.
  cbn in *. apply negb_true_iff in Tab, Tbc.
  now rewrite (consistent_trans _ collation _ _ _ Tab Tbc).
Qed.

End KeyOrder.

(** The code-unit collation orders. *)
Lemma string_compare_trans (a b c : string) :
  String.compare a b <> Gt -> String.compare b c <> Gt ->
  String.compare a c <> Gt.
Proof.
  revert b c. induction a as [|x a IH]; intros [|y b] [|z c]; cbn;
    try congruence.
  unfold Ascii.compare.
  destruct (N.compare_spec (N_of_ascii x) (N_of_ascii y)) as [Hxy|Hxy|Hxy];
    destruct (N.compare_spec (N_of_ascii y) (N_of_ascii z)) as [Hyz|Hyz|Hyz];
    destruct (N.compare_spec (N_of_ascii x) (N_of_ascii z)) as [Hxz|Hxz|Hxz];
    try congruence; try lia; eauto.
Qed.

Lemma Browser_localeCompare_gt0 (a b : string) :
  JS.gt0 (Browser.localeCompare a b)
  = match String.compare a b with Gt => true | _ => false end.
Proof. unfold Browser.localeCompare. destruct (String.compare a b); reflexivity. Qed.

Lemma Browser_localeCompare_lt0 (a b : string) :
  JS.lt0 (Browser.localeCompare a b)
  = match String.compare a b with Lt => true | _ => false end.
Proof. unfold Browser.localeCompare. destruct (String.compare a b); reflexivity. Qed.

Lemma Browser_consistent : Consistent (localeCompare Browser.host).
Proof.
  constructor; cbn [localeCompare Browser.host].
  - intros a b. rewrite Browser_localeCompare_gt0, Browser_localeCompare_lt0.
    rewrite (String.compare_antisym a b).
    destruct (String.compare b a); reflexivity.
  - intros a b c. rewrite !Browser_localeCompare_gt0. intros Hab Hbc.
    pose proof (string_compare_trans a b c) as H.
    destruct (String.compare a b), (String.compare b c),
             (String.compare a c); try reflexivity; try discriminate;
      exfalso; apply H; congruence.
Qed.

(* ================================================================= *)
(** * The day plan is sorted: the claims *)

Section DayPlan.
Variable host : Host.
Hypothesis collation : Consistent (localeCompare host).

Lemma buildDayPlan_sorted (stops : list Stop.t) :
  Forall (fun st => validSequence st = true) stops ->
  StronglySorted (fun a b => keyLe host a b = true) (buildDayPlan host stops).
Proof.
  apply (Array_sort_sorted (compareStops host) (keyLe host)
           (fun st => validSequence st = true)).
  - apply compareStops_gt0.
  - apply keyLe_total, collation.
  - apply keyLe_trans, collation.
Qed.

Lemma buildDayPlan_stable (stops : list Stop.t) (st : Stop.t) :
  Forall (fun st => validSequence st = true) stops ->
  filter (sameKey host st) (buildDayPlan host stops)
  = filter (sameKey host st) stops.
Proof.
  apply (Array_sort_stable (compareStops host) (keyLe host)
           (fun st => validSequence st = true)).
  - apply compareStops_gt0.
  - apply keyLe_trans, collation.
Qed.

End DayPlan.

(** Sequences 3, 1 and none: the times are not looked at. *)
Lemma buildDayPlan_3_1_none (host : Host) (a b c : Stop.t) :
  Stop.sequence a = Some (JS.of_Z 3) ->
  Stop.sequence b = Some (JS.of_Z 1) ->
  Stop.sequence c = None ->
  buildDayPlan host [a; b; c] = [b; a; c].
Proof.
  intros Ha Hb Hc.
  assert (JS.gt0 (compareStops host b c) = false) as Hbc
    by (unfold compareStops; rewrite Hb, Hc; vm_compute; reflexivity).
  assert (JS.gt0 (compareStops host a b) = true) as Hab
    by (unfold compareStops; rewrite Ha, Hb; vm_compute; reflexivity).
  assert (JS.gt0 (compareStops host a c) = false) as Hac
    by (unfold compareStops; rewrite Ha, Hc; vm_compute; reflexivity).
  unfold buildDayPlan, Array_sort. cbn [fold_right insert].
  rewrite Hbc. cbn [insert]. rewrite Hab, Hac. reflexivity.
Qed.

(** C1, as the code has it.  For every list of stops whose sequences
    are binary64 numbers, and every collation that orders,
    [buildDayPlan] returns a permutation of the list that ascends by the
    composite key (the sequence if present and neither zero nor NaN,
    else +infinity; then the time if present and not empty, else the
    empty string, compared by [localeCompare]), and among stops of one
    key the order of arrival is kept.  In particular stops of sequences
    3, 1 and none come out as 1, 3, none, whatever their times. *)
Theorem C1_day_plan_sorted_by_key (host : Host) (stops : list Stop.t) :
  Consistent (localeCompare host) ->
  Forall (fun st => validSequence st = true) stops ->
  Permutation (buildDayPlan host stops) stops
  /\ StronglySorted (fun a b => keyLe host a b = true) (buildDayPlan host stops)
  /\ (forall st,
        filter (sameKey host st) (buildDayPlan host stops)
        = filter (sameKey host st) stops)
  /\ (forall a b c,
        Stop.sequence a = Some (JS.of_Z 3) ->
        Stop.sequence b = Some (JS.of_Z 1) ->
        Stop.sequence c = None ->
        buildDayPlan host [a; b; c] = [b; a; c]).
Proof.
  intros Hc Hv. split; [apply Array_sort_Permutation|]. split; [|split].
  - now apply buildDayPlan_sorted.
  - intros st. now apply buildDayPlan_stable.
  - intros a b c Ha Hb Hc'. apply buildDayPlan_3_1_none; assumption.
Qed.

(** The scenario of the specification: sequences 3, 1 and none with
    times 10:00, 09:00 and 08:00 come out as 1, 3, none. *)
Lemma C1_witness :
  Consistent (localeCompare Browser.host)
  /\ Forall (fun st => validSequence st = true)
       [Sample.third; Sample.first; Sample.unnumbered]
  /\ buildDayPlan Browser.host [Sample.third; Sample.first; Sample.unnumbered]
     = [Sample.first; Sample.third; Sample.unnumbered]
  /\ StronglySorted (fun a b => keyLe Browser.host a b = true)
       (buildDayPlan Browser.host
          [Sample.third; Sample.first; Sample.unnumbered]).
Proof.
  assert (Forall (fun st => validSequence st = true)
            [Sample.third; Sample.first; Sample.unnumbered]) as Hv
    by (repeat constructor).
  split; [exact Browser_consistent|].
  split; [exact Hv|]. split; [vm_compute; reflexivity|].
  exact (proj1 (proj2 (C1_day_plan_sorted_by_key Browser.host
                         [Sample.third; Sample.first; Sample.unnumbered]
                         Browser_consistent Hv))).
Defined.

(** C1 as the specification states it fails where a sequence is 0: the
    key of the specification puts the stop of sequence 0 before the
    stop of sequence 1, and [buildDayPlan] puts it after. *)
Lemma C1_counterexample :
  specKeyLe Sample.zeroth Sample.first = true
  /\ specKeyLe Sample.first Sample.zeroth = false
  /\ buildDayPlan Browser.host [Sample.zeroth; Sample.first]
     = [Sample.first; Sample.zeroth]
  /\ ~ StronglySorted (fun a b => specKeyLe a b = true)
         (buildDayPlan Browser.host [Sample.zeroth; Sample.first]).
Proof.
  split; [vm_compute; reflexivity|].
  split; [vm_compute; reflexivity|].
  split; [vm_compute; reflexivity|].
  replace (buildDayPlan Browser.host [Sample.zeroth; Sample.first])
    with [Sample.first; Sample.zeroth] by (vm_compute; reflexivity).
  intros H. inversion H as [|? ? _ Hall]; subst.
  inversion Hall as [|? ? Hle _]; subst.
  vm_compute in Hle. discriminate.
Qed.

(** The comparator does not see a zero sequence. *)
Lemma compareStops_withoutZeroSequence (host : Host) (a b : Stop.t) :
  compareStops host (withoutZeroSequence a) (withoutZeroSequence b)
  = compareStops host a b.
Proof.
  unfold compareStops, withoutZeroSequence, zeroSequence.
  destruct (Stop.sequence a) as [[]|] eqn:Ha,
           (Stop.sequence b) as [[]|] eqn:Hb;
    cbn [Stop.sequence Stop.time]; rewrite ?Ha, ?Hb; reflexivity.
Qed.

(** C9.  A stop whose sequence is 0 is ordered as if it had none:
    taking every zero sequence of the list for an absent one changes
    nothing in the order [buildDayPlan] gives; against a stop without
    sequence the comparator answers what [localeCompare] answers on the
    two times; and, the sequences being binary64 numbers and the
    collation one that orders, no stop with a positive finite sequence
    comes after a stop whose sequence is 0. *)
Theorem C9_zero_sequence_sorts_as_absent (host : Host) (stops : list Stop.t) :
  Consistent (localeCompare host) ->
  Forall (fun st => validSequence st = true) stops ->
  buildDayPlan host (map withoutZeroSequence stops)
  = map withoutZeroSequence (buildDayPlan host stops)
  /\ (forall z n,
        zeroSequence z = true -> Stop.sequence n = None ->
        compareStops host z n = localeCompare host (timeKey z) (timeKey n)
        /\ compareStops host n z = localeCompare host (timeKey n) (timeKey z))
  /\ (forall before z after,
        buildDayPlan host stops = before ++ z :: after ->
        zeroSequence z = true ->
        Forall (fun p => positiveSequence p = false) after).
Proof.
  intros Hc Hv. split; [|split].
  - apply Array_sort_map. apply compareStops_withoutZeroSequence.
  - intros z n Hz Hn. unfold compareStops, zeroSequence, timeKey in *.
    rewrite Hn. destruct (Stop.sequence z) as [[]|]; try discriminate.
    split; reflexivity.
  - intros before z after Hplan Hz.
    pose proof (buildDayPlan_sorted host Hc stops Hv) as Hs.
    rewrite Hplan in Hs.
    apply StronglySorted_suffix in Hs.
    inversion Hs as [|? ? _ Hall]; subst.
    eapply Forall_impl; [|exact Hall]. intros p Hp.
    unfold keyLe, sequenceKey, sequenceOrInfinity, zeroSequence,
      positiveSequence in *.
    destruct (Stop.sequence z) as [[]|]; try discriminate.
    destruct (Stop.sequence p) as [[| |  |[]]|]; try reflexivity.
    cbn in Hp. discriminate.
Qed.

(** The stop of sequence 0, of the earliest time, comes last. *)
Lemma C9_witness :
  Consistent (localeCompare Browser.host)
  /\ Forall (fun st => validSequence st = true)
       [Sample.zeroth; Sample.third; Sample.first]
  /\ buildDayPlan Browser.host [Sample.zeroth; Sample.third; Sample.first]
     = [Sample.first; Sample.third; Sample.zeroth]
  /\ buildDayPlan Browser.host
       (map withoutZeroSequence [Sample.zeroth; Sample.third; Sample.first])
     = map withoutZeroSequence
         (buildDayPlan Browser.host [Sample.zeroth; Sample.third; Sample.first]).
Proof.
  assert (Forall (fun st => validSequence st = true)
            [Sample.zeroth; Sample.third; Sample.first]) as Hv
    by (repeat constructor).
  split; [exact Browser_consistent|].
  split; [exact Hv|]. split; [vm_compute; reflexivity|].
  exact (proj1 (C9_zero_sequence_sorts_as_absent Browser.host
                  [Sample.zeroth; Sample.third; Sample.first]
                  Browser_consistent Hv)).
Defined.

(** Among stops without a usable sequence the time decides: the stop of
    sequence 0 and time 07:00 comes before the stop without sequence
    and time 08:00. *)
Example buildDayPlan_zero_among_unnumbered :
  buildDayPlan Browser.host [Sample.unnumbered; Sample.zeroth]
  = [Sample.zeroth; Sample.unnumbered].
Proof. vm_compute. reflexivity. Qed.

(* ================================================================= *)
(** * What [sendText] leaves behind *)

Section Session.
Variable host : Host.

Lemma showFailure_run (message : string) (s : State) :
  showFailure message s = (Return tt, set_errorMessage (failureText message) s).
Proof. reflexivity. Qed.

Lemma failureText_not_empty (message : string) : failureText message <> "".
Proof. discriminate. Qed.

(** The state after [sendText], by what its [try] block did. *)
Lemma sendText_cases (response : Response) (s : State) :
  exec (sendText host response) s
  = match processResponse host response (fresh s) with
    | (Return _, s') => s'
    | (Throw e, s') => set_errorMessage (failureText e) s'
    end.
Proof.
  unfold exec. rewrite sendText_run. unfold try_catch.
  destruct (processResponse host response (fresh s)) as [[[]|e] s'];
    reflexivity.
Qed.

(** *** Nothing of the session before is left *)









End Session.



Section SessionInvariant.
Variable host : Host.

Lemma fresh_sessionInvariant (s : State) : sessionInvariant (fresh s).
Proof.
  unfold sessionInvariant, markersMatch, fresh. cbn.
  repeat split; destruct (isMapInitialized s); auto.
Qed.

Lemma Forall2_snoc {A B} (R : A -> B -> Prop) (l : list A) (l' : list B)
    (x : A) (y : B) :
  Forall2 R l l' -> R x y -> Forall2 R (l ++ [x]) (l' ++ [y]).
Proof. intros H Hxy. apply Forall2_app; auto. Qed.

Lemma processCall_sessionInvariant (fn : FunctionCall) (s : State) :
  sessionInvariant s -> sessionInvariant (snd (processCall host fn s)).
Proof.
  intros (Hplan & Htl & Hvis & Herr & Hmk).
  unfold sessionInvariant, markersMatch in *.
  destruct fn as [args|args|name]; cbn [processCall].
  - rewrite setPin_run. cbv zeta.
    destruct (isMapInitialized s) eqn:Hmap.
    + destruct (latLngError host (pointOf args)).
      * cbn. rewrite Hmap. auto.
      * destruct (truthy (LocationArgs.time args)) eqn:Ht; cbn;
          rewrite Hmap, filter_app; cbn; unfold hasTime at 2; cbn;
          rewrite Ht, Hplan, ?app_nil_r;
          repeat split; auto;
          apply Forall2_snoc; auto; repeat split.
    + destruct Hmk as [Hm Hnone].
      destruct (truthy (LocationArgs.time args)) eqn:Ht; cbn;
        rewrite Hmap, filter_app; cbn; unfold hasTime at 2; cbn;
        rewrite Ht, Hplan, ?app_nil_r;
        repeat split; auto;
        apply Forall_app; split; auto.
  - rewrite setLeg_run. cbv zeta.
    destruct (isMapInitialized s) eqn:Hmap;
      [destruct (latLngError host (startOf args));
       [|destruct (latLngError host (endOf args))]|];
      cbn; rewrite Hmap; auto.
  - cbn. auto.
Qed.

(** The state in which the loop over the calls ends, and how. *)
Lemma batch_sessionInvariant (calls : list FunctionCall) (s : State) :
  sessionInvariant (snd (for_of calls (processCall host) (fresh s))).
Proof.
  apply for_of_invariant.
  - apply processCall_sessionInvariant.
  - apply fresh_sessionInvariant.
Qed.

Lemma buildDayPlan_nil : buildDayPlan host [] = [].
Proof. reflexivity. Qed.

(** What [sendText] leaves, from what the batch left: either the batch
    ran to its end and its day plan is sorted and shown, or something
    was thrown and its message is shown. *)
Lemma sendText_outcome (response : Response) (s : State) :
  exists s1,
    sessionInvariant s1
    /\ (exec (sendText host response) s = shownPlan host s1
        \/ exists e,
             exec (sendText host response) s
             = set_errorMessage (failureText e) s1).
Proof.
  rewrite sendText_cases. destruct response as [message|[|fn calls]].
  - exists (fresh s). split; [apply fresh_sessionInvariant|].
    right. exists message. reflexivity.
  - exists (fresh s). split; [apply fresh_sessionInvariant|].
    right. exists noResults. reflexivity.
  - rewrite processResponse_run by discriminate.
    pose proof (batch_sessionInvariant (fn :: calls) s) as Hinv.
    destruct (for_of (fn :: calls) (processCall host) (fresh s))
      as [[[]|e] s1]; cbn [snd] in Hinv; exists s1; split; auto.
    right. exists e. reflexivity.
Qed.

End SessionInvariant.

(** Whatever the answer, the day plan [sendText] leaves is made of the
    stops on [popUps] that have a time, each once; and when no message
    is shown it is these stops sorted. *)
Theorem day_plan_is_the_stops_with_a_time
    (host : Host) (response : Response) (s : State) :
  let s' := exec (sendText host response) s in
  Permutation (dayPlanItinerary s') (filter hasTime (popUps s'))
  /\ (errorMessage s' = "" ->
      dayPlanItinerary s' = buildDayPlan host (filter hasTime (popUps s'))).
Proof.
  cbv zeta.
  destruct (sendText_outcome host response s)
    as (s1 & (Hplan & _) & [-> | (e & ->)]).
  - unfold shownPlan.
    destruct (0 <? List.length (dayPlanItinerary s1))%nat eqn:Hlen; cbn.
    + rewrite <- Hplan. split; [apply Array_sort_Permutation|reflexivity].
    + rewrite <- Hplan. apply Nat.ltb_ge in Hlen.
      destruct (dayPlanItinerary s1); [|cbn in Hlen; lia].
      split; [constructor|reflexivity].
  - cbn. rewrite <- Hplan. split; [reflexivity|].
    intros H. now apply failureText_not_empty in H.
Qed.


(** A failed request and an answer without function calls leave the
    state [restart] made, with the message of the [catch] block: for no
    results too it starts with "Failed to connect". *)
Theorem failed_or_empty_answer_shows_only_a_message
    (host : Host) (message : string) (s : State) :
  exec (sendText host (Failed message)) s
  = set_errorMessage (failureText message) (fresh s)
  /\ exec (sendText host (Answered [])) s
     = set_errorMessage (failureText noResults) (fresh s).
Proof. rewrite !sendText_cases. split; reflexivity. Qed.


(** For a batch on which Leaflet does not throw, the lines are the line
    records in order of arrival, the day plan is the location records
    that have a time, sorted, and the timeline is made of the two: how
    the line records are mixed with the location records in the answer
    does not show. *)
Theorem sendText_separates_lines_and_locations
    (host : Host) (calls : list FunctionCall) (s : State) :
  calls <> [] ->
  accepts host (fresh s) calls ->
  let s' := exec (sendText host (Answered calls)) s in
  lines s' = map legOf (linesOf calls)
  /\ dayPlanItinerary s'
     = buildDayPlan host
         (filter hasTime (stopsOfBatch (isMapInitialized s) calls))
  /\ timeline s' = timelineChildren (lines s') (dayPlanItinerary s')
  /\ errorMessage s' = "".
Proof.
  intros Hne Hacc. cbv zeta. rewrite sendText_cases.
  rewrite processResponse_run by assumption.
  destruct (for_of_accepted host calls (fresh s) Hacc) as [Hret Habs].
  destruct (for_of calls (processCall host) (fresh s)) as [[[]|e] s1];
    [|discriminate].
  cbn [fst snd] in *. destruct Habs as [H1 H2 H3 H4 H5 H6 H7 H8].
  cbn in H1, H3, H4, H6, H8. unfold stopsOfBatch.
  unfold shownPlan.
  destruct (0 <? List.length (dayPlanItinerary s1))%nat eqn:Hlen;
    cbn [lines set_timelineVisible set_timeline set_dayPlanItinerary
         dayPlanItinerary timeline errorMessage].
  - rewrite H3, H4, H8. repeat split.
  - apply Nat.ltb_ge in Hlen. rewrite H4, H6, H8, <- H3.
    destruct (dayPlanItinerary s1); [|cbn in Hlen; lia].
    rewrite timelineChildren_timelineFrom. repeat split.
Qed.

(** The walk sent before the two stops it connects, or after them. *)
Lemma sendText_separates_witness :
  let early := [CallLine Sample.walkArgs; CallLocation Sample.parkArgs;
                CallLocation Sample.cafeArgs] in
  let late := [CallLocation Sample.parkArgs; CallLocation Sample.cafeArgs;
               CallLine Sample.walkArgs] in
  early <> []
  /\ accepts Browser.host (fresh Sample.noMap) early
  /\ timeline (exec (sendText Browser.host (Answered early)) Sample.noMap)
     = [LocationItem 0 Sample.park; TransportItem Sample.walk;
        LocationItem 1 Sample.cafe]
  /\ timeline (exec (sendText Browser.host (Answered late)) Sample.noMap)
     = timeline (exec (sendText Browser.host (Answered early)) Sample.noMap).
Proof.
  cbv zeta.
  assert ([CallLine Sample.walkArgs; CallLocation Sample.parkArgs;
           CallLocation Sample.cafeArgs] <> []) as Hne by discriminate.
  assert (accepts Browser.host (fresh Sample.noMap)
            [CallLine Sample.walkArgs; CallLocation Sample.parkArgs;
             CallLocation Sample.cafeArgs]) as Hacc by (left; reflexivity).
  split; [exact Hne|]. split; [exact Hacc|].
  destruct (sendText_separates_lines_and_locations Browser.host _
              Sample.noMap Hne Hacc) as (Hl & Hd & Ht & _).
  split.
  - rewrite Ht, Hl, Hd. vm_compute. reflexivity.
  - vm_compute. reflexivity.
Defined.

(* ================================================================= *)
(** * The page walk on any page *)

Section Walk.
Import Pdf.
Local Open Scope Q_scope.
Variable host : Pdf.Host.

Lemma drawLocation_calls (data : Stop.t) (d : doc) (y : Q) :
  exists rest,
    fst (drawLocation host data (d, y)) = d ++ rest
    /\ In (text [Stop.name data] contentX y) rest
    /\ ~ In addPage rest
    /\ connectorsOf rest = [].
Proof.
  unfold drawLocation.
  destruct (truthy (Stop.duration data));
    cbn [fst snd]; rewrite <- !app_assoc;
    (eexists; split; [reflexivity|]); cbn [app];
    (split; [cbn; auto 10|]);
    (split; [cbn; intuition discriminate|]); reflexivity.
Qed.

Lemma drawTransport_calls (data : Leg.t) (d : doc) (y : Q) :
  exists rest,
    fst (drawTransport host data (d, y)) = d ++ rest
    /\ In (text [transportText host data] contentX y) rest
    /\ ~ In addPage rest
    /\ connectorsOf rest = [].
Proof.
  unfold drawTransport.
  destruct (truthy (Leg.travelTime data));
    cbn [fst snd]; rewrite <- ?app_assoc;
    (eexists; split; [reflexivity|]); cbn [app];
    (split; [cbn; auto 10|]);
    (split; [cbn; intuition discriminate|]); reflexivity.
Qed.

Lemma checkPageBreak_calls (c : cursor) (h : Q) :
  exists break,
    fst (checkPageBreak host c h) = fst c ++ break
    /\ (break = [] \/ break = [addPage]).
Proof.
  destruct c as [d y]. unfold checkPageBreak.
  destruct (negb (Qle_bool (y + h) (pageHeight host - margin))); cbn [fst].
  - exists [addPage]. auto.
  - exists []. rewrite app_nil_r. auto.
Qed.

Lemma connectorsOf_app (d1 d2 : doc) :
  connectorsOf (d1 ++ d2) = connectorsOf d1 ++ connectorsOf d2.
Proof. unfold connectorsOf. apply flat_map_app. Qed.

(** One entry: at most one page break, then the entry, then its
    connector unless it is the last. *)
Lemma drawItem_calls (len : nat) (c : cursor) (index : nat)
    (item : ItineraryItem) :
  exists block,
    fst (drawItem host len c (index, item)) = fst c ++ block
    /\ placed host item block
    /\ List.length (connectorsOf block)
       = (if (index <? len - 1)%nat then 1 else 0)%nat
    /\ Forall (fun '(x1, _, x2, _) => x1 = connectorX /\ x2 = connectorX)
         (connectorsOf block).
Proof.
  unfold drawItem.
  set (h := 40 + getTextDimensions_h host (fst c) _).
  destruct (checkPageBreak_calls c h) as (break & Hd & Hbreak).
  destruct (checkPageBreak host c h) as [d1 y1]. cbn [fst snd] in *.
  subst d1.
  destruct item as [data|data];
    [ destruct (drawLocation_calls data (fst c ++ break) y1)
        as (rest & Hrest & Hin & Hnp & Hno);
      revert Hrest; set (r := drawLocation host data _)
    | destruct (drawTransport_calls data (fst c ++ break) y1)
        as (rest & Hrest & Hin & Hnp & Hno);
      revert Hrest; set (r := drawTransport host data _) ];
    intros Hrest; assert (Hr : fst r = (fst c ++ break) ++ rest) by exact Hrest;
    clear Hrest; clearbody r; destruct r as [d2 y2];
    cbn [fst] in Hr; subst d2; cbn [titleOf];
    (destruct (index <? len - 1)%nat; cbn [fst];
     [ exists (break ++ rest
               ++ [setDrawColor 224 224 224; setLineWidth 0.5;
                   line connectorX (y1 + 4) connectorX (y2 - 12)]);
       split; [now rewrite <- !app_assoc|]; split; [|split];
       [ exists (rest ++ [setDrawColor 224 224 224; setLineWidth 0.5;
                          line connectorX (y1 + 4) connectorX (y2 - 12)]), y1;
         split; [destruct Hbreak as [-> | ->]; auto|]; split;
         [ apply in_or_app; now left
         | intros H; apply in_app_or in H as [H|H]; [auto|];
           cbn in H; intuition discriminate ]
       | rewrite !connectorsOf_app, Hno;
         destruct Hbreak as [-> | ->]; reflexivity
       | rewrite !connectorsOf_app, Hno;
         destruct Hbreak as [-> | ->]; cbn; repeat constructor ]
     | exists (break ++ rest);
       split; [now rewrite <- !app_assoc|]; split; [|split];
       [ exists rest, y1; split; [destruct Hbreak as [-> | ->]; auto|]; auto
       | rewrite !connectorsOf_app, Hno;
         destruct Hbreak as [-> | ->]; reflexivity
       | rewrite !connectorsOf_app, Hno;
         destruct Hbreak as [-> | ->]; cbn; constructor ] ]).
Qed.

Lemma fold_drawItem_calls (len : nat) (es : list (nat * ItineraryItem))
    (c : cursor) :
  exists blocks,
    fst (fold_left (drawItem host len) es c) = fst c ++ List.concat blocks
    /\ Forall2 (placed host) (map snd es) blocks
    /\ List.length (connectorsOf (List.concat blocks))
       = List.length (filter (fun e => (fst e <? len - 1)%nat) es)
    /\ Forall (fun '(x1, _, x2, _) => x1 = connectorX /\ x2 = connectorX)
         (connectorsOf (List.concat blocks)).
Proof.
  revert c. induction es as [|[index item] es IH]; intros c.
  - exists []. cbn. rewrite app_nil_r. repeat split; constructor.
  - cbn [fold_left map snd filter fst].
    destruct (drawItem_calls len c index item) as (block & Hd & Hb & Hn & Hv).
    destruct (IH (drawItem host len c (index, item)))
      as (blocks & Hds & Hbs & Hns & Hvs).
    exists (block :: blocks). cbn [List.concat].
    rewrite connectorsOf_app, length_app, Hn, Hns.
    split; [rewrite Hds, Hd; now rewrite app_assoc|].
    split; [constructor; assumption|]. split.
    + destruct (index <? len - 1)%nat; reflexivity.
    + apply Forall_app. auto.
Qed.

Lemma entries_before_last {A} (l : list A) (k len : nat) :
  List.length
    (filter (fun e => (fst e <? len - 1)%nat)
       (combine (seq k (List.length l)) l))
  = Nat.min (List.length l) (len - 1 - k).
Proof.
  revert k. induction l as [|x l IH]; intros k; [reflexivity|].
  cbn [List.length seq combine filter fst].
  destruct (k <? len - 1)%nat eqn:Hk.
  - apply Nat.ltb_lt in Hk. cbn [List.length]. rewrite IH. lia.
  - apply Nat.ltb_ge in Hk. rewrite IH. lia.
Qed.


Lemma drawItineraryOnPdf_blocks (d : doc) (items : list ItineraryItem) :
  exists blocks,
    drawItineraryOnPdf host d items = d ++ heading ++ List.concat blocks
    /\ Forall2 (placed host) items blocks
    /\ List.length (connectorsOf (List.concat blocks))
       = (List.length items - 1)%nat
    /\ Forall (fun '(x1, _, x2, _) => x1 = connectorX /\ x2 = connectorX)
         (connectorsOf (List.concat blocks)).
Proof.
  unfold drawItineraryOnPdf.
  destruct (fold_drawItem_calls (List.length items) (entries items)
              (d ++ heading, 40 + 25))
    as (blocks & Hd & Hb & Hn & Hv).
  exists blocks. rewrite map_snd_entries in Hb.
  split; [rewrite Hd; cbn [fst]; now rewrite <- app_assoc|].
  split; [exact Hb|]. split; [|exact Hv].
  rewrite Hn. unfold entries. rewrite entries_before_last. lia.
Qed.

Lemma placed_title (item : ItineraryItem) (block : list call) :
  placed host item block ->
  exists y, In (text [titleOf host item] contentX y) block.
Proof.
  intros (rest & y & [-> | ->] & Hin & _); exists y; [|right]; exact Hin.
Qed.

Lemma Forall2_placed_title (items : list ItineraryItem)
    (blocks : list (list call)) (item : ItineraryItem) :
  Forall2 (placed host) items blocks ->
  In item items ->
  exists y, In (text [titleOf host item] contentX y) (List.concat blocks).
Proof.
  induction 1 as [|x block items blocks Hx _ IH]; intros Hin;
    [destruct Hin|].
  cbn [List.concat]. destruct Hin as [-> | Hin].
  - destruct (placed_title _ _ Hx) as (y & Hy).
    exists y. apply in_or_app. now left.
  - destruct (IH Hin) as (y & Hy). exists y. apply in_or_app. now right.
Qed.

(** *** An itinerary that fits *)

Section Fits.
Variable H : Q.
Hypothesis measured :
  forall d d' s,
    0 <= getTextDimensions_h host d'
           (splitTextToSize host d s (contentWidth host)) <= H.






End Fits.
End Walk.

(** Whatever the page and the measures of the text, the walk draws
    every entry of the itinerary, in order: what it adds to the
    document is the heading and one block of calls per entry, each with
    at most one page break, at its start, and with the entry's title;
    and it draws one connector less than there are entries, each a
    vertical line in the connector column. *)
Theorem drawItineraryOnPdf_draws_every_entry
    (host : Pdf.Host) (d : Pdf.doc) (items : list ItineraryItem) :
  exists blocks,
    Pdf.drawItineraryOnPdf host d items
    = d ++ Pdf.heading ++ List.concat blocks
    /\ Forall2 (placed host) items blocks
    /\ List.length (connectorsOf (List.concat blocks))
       = (List.length items - 1)%nat
    /\ Forall (fun '(x1, _, x2, _) =>
                 x1 = Pdf.connectorX /\ x2 = Pdf.connectorX)
         (connectorsOf (List.concat blocks)).
Proof. exact (drawItineraryOnPdf_blocks host d items). Qed.



(* ================================================================= *)
(** * The exported document *)

Lemma stopsOf_In (st : Stop.t) (l : list ItineraryItem) :
  In st (stopsOf l) -> In (location st) l.
Proof.
  unfold stopsOf. intros Hin. apply in_flat_map in Hin as (e & He & Hin).
  destruct e as [st'|g]; [|destruct Hin].
  destruct Hin as [-> | []]. exact He.
Qed.

Lemma fullItinerary_has_stop (lines : list Leg.t) (dayPlan : list Stop.t)
    (st : Stop.t) :
  In st dayPlan -> In (location st) (fullItinerary lines dayPlan).
Proof.
  intros Hin. apply stopsOf_In.
  now rewrite fullItinerary_assemble, stopsOf_assemble.
Qed.

Lemma fullItinerary_length (lines : list Leg.t) (dayPlan : list Stop.t) :
  (0 <? List.length (fullItinerary lines dayPlan))%nat
  = (0 <? List.length dayPlan)%nat.
Proof.
  rewrite fullItinerary_assemble. destruct dayPlan; reflexivity.
Qed.

(** The document [exportDayPlan] saves.  With an empty day plan it is
    the picture of the map alone, on one page.  Otherwise it is the
    picture, a page break, the heading, and one block per entry of the
    itinerary, in order; in particular every stop of the day plan has
    its name printed in the content column.  The file is saved last, as
    [doggy-day-plan.pdf]. *)
Theorem exported_document_has_every_stop (pdf : Pdf.Host) (s : State) :
  (dayPlanItinerary s = [] ->
   exportDayPlan pdf s = [Pdf.addImage; Pdf.save "doggy-day-plan.pdf"])
  /\ (dayPlanItinerary s <> [] ->
      exists blocks,
        exportDayPlan pdf s
        = [Pdf.addImage; Pdf.addPage] ++ Pdf.heading ++ List.concat blocks
          ++ [Pdf.save "doggy-day-plan.pdf"]
        /\ Forall2 (placed pdf)
             (fullItinerary (lines s) (dayPlanItinerary s)) blocks
        /\ forall st, In st (dayPlanItinerary s) ->
             exists y,
               In (Pdf.text [Stop.name st] Pdf.contentX y)
                  (List.concat blocks)).
Proof.
  unfold exportDayPlan. rewrite fullItinerary_length. split.
  - intros ->. reflexivity.
  - intros Hne.
    destruct (dayPlanItinerary s) as [|st0 plan] eqn:Hplan; [congruence|].
    cbn [List.length Nat.ltb Nat.leb].
    destruct (drawItineraryOnPdf_blocks pdf ([Pdf.addImage] ++ [Pdf.addPage])
                (fullItinerary (lines s) (st0 :: plan)))
      as (blocks & Hd & Hb & _).
    exists blocks. split; [|split].
    + etransitivity; [apply (f_equal (fun d => d ++ _)); exact Hd|].
      now rewrite <- !app_assoc.
    + exact Hb.
    + intros st Hin.
      exact (Forall2_placed_title pdf _ _ (location st) Hb
               (fullItinerary_has_stop (lines s) _ st Hin)).
Qed.

(* ================================================================= *)
(** * The export button *)

Lemma forEach_setStyle_map (lines : list Leg.t) :
  forEach_setStyle true lines = Return tt.
Proof. induction lines as [|line lines IH]; [reflexivity|exact IH]. Qed.

Lemma forEach_setStyle_returns (mapInitialized : bool) (lines : list Leg.t) :
  forEach_setStyle mapInitialized lines = Return tt
  <-> mapInitialized = true \/ lines = [].
Proof.
  destruct mapInitialized.
  - rewrite forEach_setStyle_map. intuition.
  - destruct lines as [|line lines]; cbn; intuition congruence.
Qed.

Lemma exportTry_keeps (pdf : Pdf.Host) (capture : Capture) (s : State)
    (v : ExportView) :
  isMapInitialized (fst (exportTry pdf capture s v)) = isMapInitialized s
  /\ lines (fst (exportTry pdf capture s v)) = lines s.
Proof. destruct capture; cbn; destruct s; auto. Qed.

Section ExportButton.
Variable host : Host.

(** The lines and the flag of the map after an answer on which Leaflet
    does not throw. *)
Lemma sendText_lines (calls : list FunctionCall) (s : State) :
  calls <> [] ->
  accepts host (fresh s) calls ->
  let s' := exec (sendText host (Answered calls)) s in
  isMapInitialized s' = isMapInitialized s
  /\ lines s' = map legOf (linesOf calls).
Proof.
  intros Hne Hacc. cbv zeta. rewrite sendText_cases.
  rewrite processResponse_run by assumption.
  destruct (for_of_accepted host calls (fresh s) Hacc) as [Hret Habs].
  destruct (for_of calls (processCall host) (fresh s)) as [[[]|e] s1];
    [|discriminate].
  cbn [fst snd] in *. destruct Habs as [H1 _ _ H4 _ _ _ _].
  cbn in H1, H4. unfold shownPlan.
  destruct (0 <? List.length (dayPlanItinerary s1))%nat; cbn; auto.
Qed.

End ExportButton.

(** The page without a map (Leaflet did not load), an answer with at
    least one line record, then a click on the export button: the
    handler throws before its [try] block, on the plain object that
    [setLeg] has put among the lines, which has no [setStyle].  So the
    promise is rejected, no file is saved, no message is shown, and the
    button stays disabled, with the label of an export in progress. *)
Theorem export_without_map_leaves_the_button_disabled
    (host : Host) (pdf : Pdf.Host) (capture : Capture)
    (calls : list FunctionCall) (s : State) (v : ExportView) :
  isMapInitialized s = false ->
  linesOf calls <> [] ->
  let s' := exec (sendText host (Answered calls)) s in
  let '(result, s'', v') := exportDayPlan_click pdf capture s' v in
  (exists e, result = Throw e)
  /\ s'' = s'
  /\ saved v' = saved v
  /\ disabled v' = true
  /\ innerHTML v' = exportingLabel.
Proof.
  intros Hmap Hline. cbv zeta.
  assert (calls <> []) as Hne by (intros ->; now apply Hline).
  destruct (sendText_lines host calls s Hne (or_introl Hmap)) as [H1 H2].
  unfold exportDayPlan_click.
  rewrite H1, H2, Hmap.
  destruct (linesOf calls) as [|a rest]; [congruence|].
  cbn. repeat split. eexists. reflexivity.
Qed.

(** The page without a map, and the answer (park, cafe, walk). *)
Lemma export_without_map_witness :
  let calls := [CallLocation Sample.parkArgs; CallLocation Sample.cafeArgs;
                CallLine Sample.walkArgs] in
  let v := mkExportView false "Export" false None in
  isMapInitialized Sample.noMap = false
  /\ linesOf calls <> []
  /\ disabled
       (snd (exportDayPlan_click (Browser.pdf 842) Captured
               (exec (sendText Browser.host (Answered calls)) Sample.noMap) v))
     = true.
Proof.
  cbv zeta.
  assert (linesOf [CallLocation Sample.parkArgs; CallLocation Sample.cafeArgs;
                   CallLine Sample.walkArgs] <> []) as Hline by discriminate.
  split; [reflexivity|]. split; [exact Hline|].
  pose proof (export_without_map_leaves_the_button_disabled Browser.host
                (Browser.pdf 842) Captured _ Sample.noMap
                (mkExportView false "Export" false None) eq_refl Hline) as H.
  cbv zeta in H.
  destruct (exportDayPlan_click _ _ _ _) as [[result s''] v'].
  destruct H as (_ & _ & _ & H & _). exact H.
Defined.

(** The handler of the export button throws only in that case: with the
    map, or without any line, it returns, and then the button is enabled
    again with the label it had, the lines are shown again, and either
    the map was captured and the document of [exportDayPlan] is saved,
    nothing else changing, or it was not, nothing is saved and the one
    message of a failed export is shown. *)
Theorem export_click_returns_and_restores
    (pdf : Pdf.Host) (capture : Capture) (s : State) (v : ExportView) :
  let '(result, s', v') := exportDayPlan_click pdf capture s v in
  (result = Return tt <-> isMapInitialized s = true \/ lines s = [])
  /\ (result = Return tt ->
      disabled v' = false
      /\ innerHTML v' = innerHTML v
      /\ linesHidden v' = false
      /\ match capture with
         | Captured => s' = s /\ saved v' = Some (exportDayPlan pdf s)
         | CaptureFailed _ =>
             s' = set_errorMessage pdfFailure s /\ saved v' = saved v
         end).
Proof.
  unfold exportDayPlan_click.
  pose proof (forEach_setStyle_returns (isMapInitialized s) (lines s)) as Hret.
  destruct (forEach_setStyle (isMapInitialized s) (lines s)) as [[]|e] eqn:Hfor.
  - pose proof (exportTry_keeps pdf capture s
                  (mkExportView true exportingLabel true (saved v)))
      as [Hk1 Hk2].
    destruct (exportTry pdf capture s _) as [s1 v1] eqn:Htry.
    cbn [fst] in Hk1, Hk2. rewrite Hk1, Hk2, Hfor.
    split; [exact Hret|]. intros _. cbn.
    destruct capture; cbn in Htry; injection Htry as <- <-; cbn; auto.
  - split.
    + split; [discriminate|]. intros H. apply Hret in H. discriminate.
    + discriminate.
Qed.

(* ================================================================= *)
(** * The Netlify function *)

Section Function.
Import Netlify.
Variable API_KEY : option string.

Lemma handler_not_post (ai : option Json -> outcome FirstParts)
    (req : Request) :
  method req <> "POST" ->
  handler API_KEY ai req
  = if (method req =? "OPTIONS")%string then mkReply 204 NoBody
    else mkReply 405 (ErrorBody "Method not allowed" None).
Proof.
  intros Hm. unfold handler.
  destruct (method req =? "OPTIONS")%string; [reflexivity|].
  destruct (method req =? "POST")%string eqn:Hpost; [|reflexivity].
  apply String.eqb_eq in Hpost. contradiction.
Qed.

Lemma handler_post (ai : option Json -> outcome FirstParts) (req : Request) :
  method req = "POST" ->
  handler API_KEY ai req
  = match answer API_KEY ai req with
    | Return reply => reply
    | Throw e => mkReply 500 (ErrorBody "Internal server error" (Some e))
    end.
Proof. intros Hm. unfold handler. rewrite Hm. reflexivity. Qed.

Lemma handler_of_request (ai : option Json -> outcome FirstParts)
    (prompt : string) :
  prompt <> "" ->
  handler API_KEY ai (request prompt)
  = match (if truthy API_KEY then ai (Some (JStr prompt))
           else Throw keyMissing) with
    | Return (Parts parts) => mkReply 200 (CallsBody (functionCallsOf parts))
    | Return NoContent => mkReply 200 (CallsBody [])
    | Return NoParts =>
        mkReply 500
          (ErrorBody "Internal server error"
             (Some "Cannot read properties of undefined (reading 'filter')"))
    | Throw e => mkReply 500 (ErrorBody "Internal server error" (Some e))
    end.
Proof.
  intros Hne. rewrite handler_post by reflexivity.
  unfold answer, request. cbn [Netlify.prompt toBoolean].
  apply String.eqb_neq in Hne. rewrite Hne. cbn [negb].
  destruct (truthy API_KEY); cbn [negb]; [|reflexivity].
  destruct (ai (Some (JStr prompt))) as [[| |parts]|e]; reflexivity.
Qed.

End Function.

Lemma handlePromptSubmission_prompt (value prompt : string) :
  snd (handlePromptSubmission value) = Some prompt ->
  prompt = value /\ value <> "".
Proof.
  unfold handlePromptSubmission.
  destruct (JS.trim (list_ascii_of_string value)) eqn:Htrim;
    cbn [snd]; [discriminate|].
  intros [= <-]. split; [reflexivity|].
  intros ->. discriminate.
Qed.


(** The model is asked only for a POST with the key set and a truthy
    prompt: on any other request the reply is the same whatever
    [generateContent] would do. *)
Theorem netlify_asks_the_model_for_a_keyed_prompt_only
    (API_KEY : option string)
    (ai1 ai2 : option Netlify.Json -> outcome Netlify.FirstParts)
    (req : Netlify.Request) :
  Netlify.method req <> "POST"
  \/ truthy API_KEY = false
  \/ (forall p, Netlify.prompt req = Return p -> Netlify.toBoolean p = false) ->
  Netlify.handler API_KEY ai1 req = Netlify.handler API_KEY ai2 req.
Proof.
  intros Hnot. destruct (string_dec (Netlify.method req) "POST") as [Hm|Hm].
  - rewrite !handler_post by assumption. unfold Netlify.answer.
    destruct Hnot as [Hnot | [Hkey | Hprompt]]; [contradiction| |].
    + rewrite Hkey. reflexivity.
    + destruct (truthy API_KEY); [|reflexivity]. cbn [negb].
      destruct (Netlify.prompt req) as [p|e]; [|reflexivity].
      rewrite (Hprompt p eq_refl). reflexivity.
  - now rewrite !handler_not_post by assumption.
Qed.

(** A POST without the key, whatever the model. *)
Lemma netlify_asks_the_model_witness :
  let req := Netlify.request "Austin" in
  (Netlify.method req <> "POST"
   \/ truthy None = false
   \/ (forall p, Netlify.prompt req = Return p
                 -> Netlify.toBoolean p = false))
  /\ Netlify.handler None (fun _ => Return Netlify.NoContent) req
     = Netlify.handler None (fun _ => Throw "quota") req.
Proof.
  cbv zeta.
  assert (Netlify.method (Netlify.request "Austin") <> "POST"
          \/ truthy None = false
          \/ (forall p, Netlify.prompt (Netlify.request "Austin") = Return p
                        -> Netlify.toBoolean p = false)) as H
    by (right; left; reflexivity).
  split; [exact H|].
  exact (netlify_asks_the_model_for_a_keyed_prompt_only None _ _ _ H).
Defined.

(** What the page submits is never refused: [handlePromptSubmission]
    hands over the value of the text area as it is, only when it is not
    empty once trimmed, and to the request [sendText] makes of it the
    function answers 200 or 500, never 400 (prompt required), 405 or
    204; and it answers 500 exactly when the key is not set, the
    model throws, or the content of its first candidate has no parts. *)
Theorem submitted_prompt_is_never_refused
    (API_KEY : option string)
    (generateContent : option Netlify.Json -> outcome Netlify.FirstParts)
    (value prompt : string) :
  snd (handlePromptSubmission value) = Some prompt ->
  let reply := Netlify.handler API_KEY generateContent
                 (Netlify.request prompt) in
  prompt = value
  /\ (Netlify.status reply = 200 \/ Netlify.status reply = 500)
  /\ (Netlify.status reply = 500
      <-> truthy API_KEY = false
          \/ (exists e, generateContent (Some (Netlify.JStr prompt)) = Throw e)
          \/ generateContent (Some (Netlify.JStr prompt))
             = Return Netlify.NoParts).
Proof.
  intros Hsub. cbv zeta.
  destruct (handlePromptSubmission_prompt _ _ Hsub) as [-> Hne].
  split; [reflexivity|].
  rewrite handler_of_request by assumption.
  destruct (truthy API_KEY).
  - destruct (generateContent (Some (Netlify.JStr value)))
      as [[| |parts]|e]; cbn.
    + split; [auto|]. split; [discriminate|].
      intros [H | [(e & H) | H]]; discriminate.
    + split; [auto|]. split; auto.
    + split; [auto|]. split; [discriminate|].
      intros [H | [(e & H) | H]]; discriminate.
    + split; [auto|]. split; eauto.
  - cbn. split; [auto|]. split; auto.
Qed.

Lemma submitted_prompt_witness :
  snd (handlePromptSubmission " Austin, TX ") = Some " Austin, TX "
  /\ Netlify.status
       (Netlify.handler (Some "key") (fun _ => Return Netlify.NoContent)
          (Netlify.request " Austin, TX ")) = 200.
Proof.
  assert (snd (handlePromptSubmission " Austin, TX ") = Some " Austin, TX ")
    as H by reflexivity.
  split; [exact H|].
  destruct (submitted_prompt_is_never_refused (Some "key")
              (fun _ => Return Netlify.NoContent) _ _ H)
    as (_ & [H200 | H500] & Hiff); [exact H200|].
  apply Hiff in H500. destruct H500 as [H1 | [(e & H1) | H1]]; discriminate.
Defined.

(** From the text area to the page: a value that is not empty once
    trimmed is sent as it is, and what the page then shows is what
    [sendText] makes of the function calls of the parts when the key is
    set and the model returns parts; the message of an answer without
    results when the model returns no candidate or no content; and in
    every other case (no key, an error of the model, content without
    parts) the same message, which does not tell the cause, on a page
    without any plan. *)
Theorem submit_shows_the_plan_or_one_of_two_messages
    (host : Host) (API_KEY : option string)
    (generateContent : option Netlify.Json -> outcome Netlify.FirstParts)
    (value : string) (s : State) :
  JS.trim (list_ascii_of_string value) <> [] ->
  submit host API_KEY generateContent value s
  = match (if truthy API_KEY then generateContent (Some (Netlify.JStr value))
           else Throw Netlify.keyMissing) with
    | Return (Netlify.Parts parts) =>
        exec (sendText host (Answered (Netlify.functionCallsOf parts))) s
    | Return Netlify.NoContent =>
        set_errorMessage (failureText noResults) (fresh s)
    | _ => set_errorMessage (failureText "Internal server error") (fresh s)
    end.
Proof.
  intros Htrim. unfold submit.
  assert (snd (handlePromptSubmission value) = Some value) as Hsub.
  { unfold handlePromptSubmission.
    destruct (JS.trim (list_ascii_of_string value)); [congruence|reflexivity]. }
  rewrite Hsub.
  destruct (handlePromptSubmission_prompt _ _ Hsub) as [_ Hne].
  rewrite handler_of_request by assumption.
  destruct (if truthy API_KEY then generateContent (Some (Netlify.JStr value))
            else Throw Netlify.keyMissing) as [[| |parts]|e];
    cbn [readResponse Netlify.status Netlify.body Z.leb Z.compare andb
         Pos.compare Pos.compare_cont or_else String.eqb];
    try reflexivity; now rewrite sendText_cases.
Qed.

(** A prompt on a server without the key. *)
Lemma submit_witness :
  JS.trim (list_ascii_of_string "Austin, TX") <> []
  /\ errorMessage
       (submit Browser.host None (fun _ => Return Netlify.NoContent)
          "Austin, TX" Sample.withMap)
     = failureText "Internal server error".
Proof.
  assert (JS.trim (list_ascii_of_string "Austin, TX") <> []) as H
    by (vm_compute; discriminate).
  split; [exact H|].
  rewrite (submit_shows_the_plan_or_one_of_two_messages Browser.host None
             (fun _ => Return Netlify.NoContent) _ Sample.withMap H).
  reflexivity.
Defined.

(* ================================================================= *)
(** * A click on a stop of the timeline *)

Lemma findIndex_In {A} (p : A -> bool) (l : list A) (x : A) :
  In x l -> p x = true ->
  exists j y, findIndex p l = Some j /\ nth_error l j = Some y /\ p y = true.
Proof.
  induction l as [|a l IH]; intros Hin Hp; [destruct Hin|].
  cbn [findIndex]. destruct (p a) eqn:Ha.
  - exists 0%nat, a. auto.
  - destruct Hin as [-> | Hin]; [congruence|].
    destruct (IH Hin Hp) as (j & y & -> & Hnth & Hy).
    exists (S j), y. auto.
Qed.

Lemma findIndex_ext {A} (p q : A -> bool) (l : list A) :
  (forall x, In x l -> p x = q x) -> findIndex p l = findIndex q l.
Proof.
  induction l as [|a l IH]; intros Hext; [reflexivity|].
  cbn [findIndex]. rewrite (Hext a (or_introl eq_refl)).
  rewrite IH; [reflexivity|]. intros x Hx. apply Hext. now right.
Qed.

Lemma NoDup_map_inj {A B} (f : A -> B) (l : list A) (x y : A) :
  NoDup (map f l) -> In x l -> In y l -> f x = f y -> x = y.
Proof.
  induction l as [|a l IH]; intros Hnd Hx Hy Hf; [destruct Hx|].
  cbn [map] in Hnd. apply NoDup_cons_iff in Hnd as [Hna Hnd].
  destruct Hx as [-> | Hx], Hy as [-> | Hy]; auto.
  - exfalso. apply Hna. rewrite Hf. now apply in_map.
  - exfalso. apply Hna. rewrite <- Hf. now apply in_map.
Qed.

Lemma locationItems_stopsOf (children : list TimelineItem) :
  locationItems children = stopsOf (map entryOf children).
Proof.
  unfold locationItems, stopsOf.
  induction children as [|[index item|line] children IH]; cbn; congruence.
Qed.

Lemma locationItems_timelineChildren (lines : list Leg.t)
    (dayPlan : list Stop.t) :
  locationItems (timelineChildren lines dayPlan) = dayPlan.
Proof.
  now rewrite locationItems_stopsOf, timelineChildren_assemble,
    stopsOf_assemble.
Qed.

Section ClickProofs.
Variable host : Host.

Lemma sendText_phases (P Q : State -> Prop) (response : Response)
    (s : State) :
  P (fresh s) ->
  (forall fn t, P t -> P (snd (processCall host fn t))) ->
  (forall t, P t -> Q (shownPlan host t)) ->
  (forall e t, P t -> Q (set_errorMessage e t)) ->
  Q (exec (sendText host response) s).
Proof.
  intros Hfresh Hcall Hshow Hfail. rewrite sendText_cases.
  destruct response as [message|[|fn calls]].
  - cbn. now apply Hfail.
  - cbn. now apply Hfail.
  - rewrite processResponse_run by discriminate.
    pose proof (for_of_invariant P (processCall host) Hcall (fn :: calls)
                  (fresh s) Hfresh) as Hf.
    destruct (for_of (fn :: calls) (processCall host) (fresh s))
      as [[[]|e] t]; cbn [snd] in Hf; auto.
Qed.

Local Abbreviation batch s := (clickable host s /\ timeline s = []).

Lemma clickable_incl (s : State) :
  clickable host s -> incl (dayPlanItinerary s) (popUps s).
Proof.
  intros (Hperm & _) st Hst.
  eapply Permutation_in in Hst; [|exact Hperm].
  now apply filter_In in Hst.
Qed.

Lemma plan_push (popUps plan : list Stop.t) (info : Stop.t) :
  Permutation plan (filter hasTime popUps) ->
  Permutation (if hasTime info then plan ++ [info] else plan)
    (filter hasTime (popUps ++ [info])).
Proof.
  intros Hperm. rewrite filter_app. cbn [filter].
  destruct (hasTime info).
  - now apply Permutation_app.
  - now rewrite app_nil_r.
Qed.

Lemma processCall_clickable (fn : FunctionCall) (t : State) :
  batch t -> batch (snd (processCall host fn t)).
Proof.
  intros [(Hperm & Hmap & _) Htl].
  destruct fn as [args|args|name]; cbn [processCall].
  - rewrite setPin_run. cbv zeta. unfold clickable, onTheMap.
    pose proof (fun m => plan_push (popUps t) (dayPlanItinerary t)
                           (locationInfo args m) Hperm) as Hpush.
    unfold hasTime in Hpush. cbn [Stop.time locationInfo] in Hpush.
    destruct (isMapInitialized t) eqn:Hinit;
      [destruct (latLngError host (pointOf args)) eqn:Herr|].
    + cbn. rewrite Hinit. auto.
    + specialize (Hpush (markerOf true args)).
      destruct (truthy (LocationArgs.time args)); cbn; rewrite ?Hinit;
        (split; [|exact Htl]); (split; [exact Hpush|]);
        (split; [|left; exact Htl]); intros _;
        (apply Forall_app; split; [auto|]);
        repeat constructor; solve [exact Herr | discriminate].
    + specialize (Hpush None).
      destruct (truthy (LocationArgs.time args)); cbn; rewrite ?Hinit;
        (split; [|exact Htl]); (split; [exact Hpush|]);
        (split; [|left; exact Htl]); discriminate.
  - rewrite setLeg_run. cbv zeta. unfold clickable, onTheMap.
    destruct (isMapInitialized t) eqn:Hinit;
      [destruct (latLngError host (startOf args));
       [|destruct (latLngError host (endOf args))]|];
      cbn; rewrite ?Hinit; repeat split; auto; discriminate.
  - cbn. unfold clickable. auto.
Qed.

Lemma shownPlan_clickable (t : State) :
  batch t -> clickable host (shownPlan host t).
Proof.
  intros [(Hperm & Hmap & Hloc) Htl]. unfold shownPlan.
  destruct (0 <? List.length (dayPlanItinerary t))%nat;
    [|unfold clickable; auto].
  unfold clickable, onTheMap. cbn. repeat split; auto.
  - etransitivity; [apply Array_sort_Permutation|exact Hperm].
  - right. apply locationItems_timelineChildren.
Qed.

Lemma sendText_clickable (response : Response) (s : State) :
  clickable host (exec (sendText host response) s).
Proof.
  apply (sendText_phases (fun t => batch t) (clickable host)).
  - unfold clickable, onTheMap. cbn. repeat split; auto.
  - apply processCall_clickable.
  - apply shownPlan_clickable.
  - intros e t [H _]. exact H.
Qed.

Lemma clickable_names (s : State) :
  clickable host s ->
  NoDup (map Stop.name (popUps s)) ->
  NoDup (map Stop.name (dayPlanItinerary s)).
Proof.
  intros (Hperm & _) Hnd.
  eapply Permutation_NoDup;
    [apply Permutation_sym, Permutation_map; exact Hperm|].
  clear Hperm. induction (popUps s) as [|a l IH]; [constructor|].
  cbn [map] in Hnd. apply NoDup_cons_iff in Hnd as [Hna Hnd].
  cbn [filter]. destruct (hasTime a); [|auto].
  cbn [map]. constructor; [|auto].
  intros Hin. apply Hna. apply in_map_iff in Hin as (x & Hx & Hin).
  apply filter_In in Hin as [Hin _]. rewrite <- Hx. now apply in_map.
Qed.

Lemma findIndex_NoDup {A} (f : A -> string) (l : list A) (k : nat) (x : A) :
  NoDup (map f l) ->
  nth_error l k = Some x ->
  findIndex (fun y => (f y =? f x)%string) l = Some k.
Proof.
  revert k. induction l as [|a l IH]; intros k Hnd Hk;
    [destruct k; discriminate|].
  cbn [map] in Hnd. apply NoDup_cons_iff in Hnd as [Hna Hnd].
  cbn [findIndex]. destruct k as [|k]; cbn in Hk.
  - injection Hk as ->. now rewrite String.eqb_refl.
  - destruct (f a =? f x)%string eqn:Ha.
    + apply String.eqb_eq in Ha. exfalso. apply Hna. rewrite Ha.
      apply in_map. now apply nth_error_In in Hk.
    + now rewrite (IH k Hnd Hk).
Qed.

Variable textContent : string -> string.

(** A click on a stop of the day plan, in a state where the day plan is
    what the timeline shows. *)
Lemma click_run (item : Stop.t) (s : State) (v : Selection) :
  clickable host s ->
  In item (locationItems (timeline s)) ->
  Forall (fun st => textContent (Stop.name st) = Stop.name st) (popUps s) ->
  let sameName := fun st => (Stop.name st =? Stop.name item)%string in
  exists j stop,
    findIndex sameName (popUps s) = Some j
    /\ nth_error (popUps s) j = Some stop
    /\ Stop.name stop = Stop.name item
    /\ clickTimelineItem host textContent item s v
       = (Return tt,
          if isMapInitialized s
          then mkSelection (findIndex sameName (dayPlanItinerary s))
                 (Some j) (Some (Stop.position stop))
          else mkSelection (findIndex sameName (dayPlanItinerary s))
                 (openPopup v) (center v)).
Proof.
  intros Hclick Hin Htext. cbv zeta.
  pose proof (clickable_incl s Hclick) as Hincl.
  destruct Hclick as (_ & Hmap & Hloc).
  destruct Hloc as [Hnil | Hloc]; [rewrite Hnil in Hin; destruct Hin|].
  rewrite Hloc in Hin.
  destruct (findIndex_In (fun st => (Stop.name st =? Stop.name item)%string)
              (popUps s) item (Hincl _ Hin) (String.eqb_refl _))
    as (j & stop & Hj & Hnth & Hname).
  apply String.eqb_eq in Hname.
  exists j, stop. repeat split; auto.
  unfold clickTimelineItem, highlightTimelineItem. rewrite Hj, Hnth, Hloc.
  destruct (dayPlanItinerary s) as [|st0 plan] eqn:Hplan; [destruct Hin|].
  rewrite <- Hplan in *. cbn [openPopup center active].
  assert (findIndex
            (fun it => (textContent (Stop.name it) =? Stop.name stop)%string)
            (dayPlanItinerary s)
          = findIndex (fun st => (Stop.name st =? Stop.name item)%string)
              (dayPlanItinerary s)) as ->.
  { apply findIndex_ext. intros x Hx. rewrite Hname.
    rewrite Forall_forall in Htext. now rewrite (Htext x (Hincl x Hx)). }
  destruct (isMapInitialized s) eqn:Hinit; [|reflexivity].
  specialize (Hmap Hinit). rewrite Forall_forall in Hmap.
  destruct (Hmap stop (nth_error_In _ _ Hnth)) as [Herr Hmarker].
  rewrite Herr. destruct (Stop.marker stop); [reflexivity|congruence].
Qed.

End ClickProofs.

(** After any answer, a click on a stop of the timeline does not throw,
    when the names of the stops are read back from the page as they
    were written.  It makes active the first stop of the day plan that
    has the name of the clicked one, and with the map it opens the popup
    of the first stop of [popUps] that has this name, which may have no
    time and so not be on the timeline, and pans the map to it; without
    the map, the popups and the map stay as they are. *)
Theorem click_selects_the_first_stop_of_that_name
    (host : Host) (textContent : string -> string) (response : Response)
    (s : State) (item : Stop.t) (v : Selection) :
  let s' := exec (sendText host response) s in
  In item (locationItems (timeline s')) ->
  Forall (fun st => textContent (Stop.name st) = Stop.name st) (popUps s') ->
  let sameName := fun st => (Stop.name st =? Stop.name item)%string in
  exists j stop,
    findIndex sameName (popUps s') = Some j
    /\ nth_error (popUps s') j = Some stop
    /\ Stop.name stop = Stop.name item
    /\ clickTimelineItem host textContent item s' v
       = (Return tt,
          if isMapInitialized s'
          then mkSelection (findIndex sameName (dayPlanItinerary s'))
                 (Some j) (Some (Stop.position stop))
          else mkSelection (findIndex sameName (dayPlanItinerary s'))
                 (openPopup v) (center v)).
Proof.
  cbv zeta. intros Hin Htext.
  exact (click_run host textContent item _ v
           (sendText_clickable host response s) Hin Htext).
Qed.

(** With the map: a cafe without a time, then the park and another
    cafe, both with a time.  A click on the cafe of the timeline makes
    its item active, opens the popup of the cafe without a time, and
    pans the map there. *)
Lemma click_first_witness :
  let other := LocationArgs.mk "Cafe" "Closed on Mondays" (JS.Str "30.5")
                 (JS.Str "-97.5") None None None in
  let s' := exec (sendText Browser.host
                    (Answered [CallLocation other;
                               CallLocation Sample.parkArgs;
                               CallLocation Sample.cafeArgs]))
              Sample.withMap in
  let cafe := locationInfo Sample.cafeArgs (markerOf true Sample.cafeArgs) in
  In cafe (locationItems (timeline s'))
  /\ Forall (fun st => Stop.name st = Stop.name st) (popUps s')
  /\ clickTimelineItem Browser.host (fun name => name) cafe s'
       (mkSelection None None None)
     = (Return tt,
        mkSelection (Some 1%nat) (Some 0%nat) (Some (pointOf other))).
Proof.
  cbv zeta.
  set (other := LocationArgs.mk "Cafe" "Closed on Mondays" (JS.Str "30.5")
                  (JS.Str "-97.5") None None None).
  set (s' := exec (sendText Browser.host
                     (Answered [CallLocation other;
                                CallLocation Sample.parkArgs;
                                CallLocation Sample.cafeArgs]))
               Sample.withMap).
  set (cafe := locationInfo Sample.cafeArgs (markerOf true Sample.cafeArgs)).
  assert (In cafe (locationItems (timeline s'))) as Hin
    by (vm_compute; right; left; reflexivity).
  assert (Forall (fun st => Stop.name st = Stop.name st) (popUps s')) as Htext
    by (apply Forall_forall; reflexivity).
  split; [exact Hin|]. split; [exact Htext|].
  destruct (click_selects_the_first_stop_of_that_name Browser.host
              (fun name => name)
              (Answered [CallLocation other; CallLocation Sample.parkArgs;
                         CallLocation Sample.cafeArgs])
              Sample.withMap cafe (mkSelection None None None) Hin Htext)
    as (j & stop & Hj & Hnth & _ & Hrun).
  fold s' in Hj, Hnth, Hrun. rewrite Hrun.
  assert (findIndex (fun st => (Stop.name st =? Stop.name cafe)%string)
            (popUps s') = Some 0%nat) as Hj0 by (vm_compute; reflexivity).
  rewrite Hj0 in Hj. injection Hj as <-.
  assert (nth_error (popUps s') 0 = Some (locationInfo other (markerOf true other)))
    as Hn0 by (vm_compute; reflexivity).
  rewrite Hn0 in Hnth. injection Hnth as <-.
  vm_compute. reflexivity.
Defined.

(** When no two stops of the answer have the same name, the click
    selects the clicked stop itself: its item becomes the active one,
    and with the map its own popup is opened and the map is panned to
    its position. *)
Theorem click_selects_the_stop_when_names_differ
    (host : Host) (textContent : string -> string) (response : Response)
    (s : State) (k : nat) (item : Stop.t) (v : Selection) :
  let s' := exec (sendText host response) s in
  nth_error (locationItems (timeline s')) k = Some item ->
  Forall (fun st => textContent (Stop.name st) = Stop.name st) (popUps s') ->
  NoDup (map Stop.name (popUps s')) ->
  exists j,
    nth_error (popUps s') j = Some item
    /\ clickTimelineItem host textContent item s' v
       = (Return tt,
          if isMapInitialized s'
          then mkSelection (Some k) (Some j) (Some (Stop.position item))
          else mkSelection (Some k) (openPopup v) (center v)).
Proof.
  cbv zeta. intros Hk Htext Hnd.
  pose proof (sendText_clickable host response s) as Hclick.
  pose proof (nth_error_In _ _ Hk) as Hin.
  destruct (click_run host textContent item _ v Hclick Hin Htext)
    as (j & stop & Hj & Hnth & Hname & Hrun).
  pose proof (clickable_incl host _ Hclick) as Hincl.
  pose proof (clickable_names host _ Hclick Hnd) as Hplan.
  destruct Hclick as (_ & _ & Hloc).
  destruct Hloc as [Hnil | Hloc]; [rewrite Hnil in Hin; destruct Hin|].
  rewrite Hloc in Hin, Hk.
  assert (stop = item) as ->.
  { apply (NoDup_map_inj Stop.name _ _ _ Hnd); auto.
    now apply nth_error_In in Hnth. }
  exists j. split; [exact Hnth|]. rewrite Hrun.
  now rewrite (findIndex_NoDup Stop.name _ k item Hplan Hk).
Qed.

(** Without the map: the park, the cafe and the walk; a click on the
    second stop of the timeline. *)
Lemma click_own_witness :
  let s' := exec (sendText Browser.host
                    (Answered [CallLocation Sample.parkArgs;
                               CallLocation Sample.cafeArgs;
                               CallLine Sample.walkArgs]))
              Sample.noMap in
  nth_error (locationItems (timeline s')) 1 = Some Sample.cafe
  /\ Forall (fun st => Stop.name st = Stop.name st) (popUps s')
  /\ NoDup (map Stop.name (popUps s'))
  /\ clickTimelineItem Browser.host (fun name => name) Sample.cafe s'
       (mkSelection None None None)
     = (Return tt, mkSelection (Some 1%nat) None None).
Proof.
  cbv zeta.
  set (s' := exec (sendText Browser.host
                     (Answered [CallLocation Sample.parkArgs;
                                CallLocation Sample.cafeArgs;
                                CallLine Sample.walkArgs]))
               Sample.noMap).
  assert (nth_error (locationItems (timeline s')) 1 = Some Sample.cafe) as Hk
    by (vm_compute; reflexivity).
  assert (Forall (fun st => Stop.name st = Stop.name st) (popUps s')) as Htext
    by (apply Forall_forall; reflexivity).
  assert (NoDup (map Stop.name (popUps s'))) as Hnd.
  { vm_compute. repeat constructor; cbn; intuition discriminate. }
  split; [exact Hk|]. split; [exact Htext|]. split; [exact Hnd|].
  destruct (click_selects_the_stop_when_names_differ Browser.host
              (fun name => name)
              (Answered [CallLocation Sample.parkArgs;
                         CallLocation Sample.cafeArgs;
                         CallLine Sample.walkArgs])
              Sample.noMap 1 Sample.cafe (mkSelection None None None)
              Hk Htext Hnd) as (j & _ & Hrun).
  fold s' in Hrun. rewrite Hrun.
  replace (isMapInitialized s') with false by (vm_compute; reflexivity).
  reflexivity.
Defined.
